(** * The image generation service: [src/services/geminiService.ts]

    A shallow embedding of [generateSingleImage] and [generateBatchImages]
    together with the [GeneratedImage] interface of the types module.

    JavaScript strings are [string], integral JavaScript numbers are [Z],
    [undefined]/absent properties are [None].  A thrown value is [null],
    [undefined], or a value seen through its [message].  The asynchronous
    part is modelled by a schedule: the list of settlements in the order
    the event loop runs their continuations.  Writes to the console are
    not modelled. *)

From stdpp Require Import base option list gmap strings pretty.
From Stdlib Require Import ZArith Lia Ascii Sorted.

Local Open Scope Z_scope.

(** ** Values, exceptions, completions *)

Inductive JsValue :=
| JString (s : string)
| JNumber (n : Z)
| JBoolean (b : bool).

(** A thrown value: anything can be thrown.  Of [null] and [undefined] no
    property can be read; any other value is seen through the only
    property the code reads from it, [error.message], which may be
    absent. *)
Inductive Thrown :=
| ThrownNull
| ThrownUndefined
| ThrownValue (message : option string).

(** [new Error(msg)] *)
Definition new_Error (msg : string) : Thrown := ThrownValue (Some msg).

(** The [TypeError] raised when a property is read from [null] or
    [undefined].  The wording is the engine's (V8 here). *)
Definition TypeError_reading_of (base property : string) : Thrown :=
  new_Error ("Cannot read properties of " +:+ base +:+
             " (reading '" +:+ property +:+ "')").

Definition TypeError_reading (property : string) : Thrown :=
  TypeError_reading_of "undefined" property.

(** Outcome of evaluating a block: a value, or a thrown exception. *)
Inductive Completion (A : Type) :=
| Normal (a : A)
| Throw (e : Thrown).
Arguments Normal {A} a.
Arguments Throw {A} e.

(** [error.message] *)
Definition message (error : Thrown) : Completion (option string) :=
  match error with
  | ThrownNull => Throw (TypeError_reading_of "null" "message")
  | ThrownUndefined => Throw (TypeError_reading_of "undefined" "message")
  | ThrownValue m => Normal m
  end.

(** Truthiness of a string: only the empty string is falsy. *)
Definition truthy (s : string) : bool :=
  match s with
  | EmptyString => false
  | String _ _ => true
  end.

(** [a || b] where [a] is a possibly undefined string. *)
Definition or_else (a : option string) (b : string) : string :=
  match a with
  | Some s => if truthy s then s else b
  | None => b
  end.

(** ** The types module *)

Module GeneratedImage.
Record t := {
  id : string;
  base64 : string;
  prompt : string;
  timestamp : Z;
  selected : bool;
  aspectRatio : string
}.

(** The object a [GeneratedImage] is at run time: its own properties,
    as the object literal of [generateSingleImage] writes them. *)
Definition to_object (img : t) : gmap string JsValue :=
  <["id" := JString (id img)]>
  (<["base64" := JString (base64 img)]>
  (<["prompt" := JString (prompt img)]>
  (<["timestamp" := JNumber (timestamp img)]>
  (<["selected" := JBoolean (selected img)]>
  (<["aspectRatio" := JString (aspectRatio img)]> ∅))))).
End GeneratedImage.

(** ** The provider's request and response

    Modelled from the spec: the request and response types belong to the
    provider's client package, which is not part of this repository.  The
    response carries a list of content parts, each text or inline binary
    data with a declared MIME type; every property the code reads may be
    absent. *)

Record Blob := { mimeType : option string; data : option string }.
Record Part := { text : option string; inlineData : option Blob }.
Record Content := { parts : option (list Part) }.
Record Candidate := { content : option Content }.
Record GenerateContentResponse := { candidates : option (list Candidate) }.

Record ImageConfig := { imageConfig_aspectRatio : string; imageSize : string }.
Record GenerateContentParameters := {
  model : string;
  contents_parts : list string;   (* contents: { parts: [{ text }] } *)
  imageConfig : ImageConfig
}.

(** What the environment supplies to one call of [generateSingleImage]
    when its awaited provider call settles: the provider's answer to the
    request it was sent, the text of [Math.random().toString(36)] and the
    reading of [Date.now()].  The client of line 30 is taken as
    constructed: [provider] is its [models.generateContent]. *)
Record Settlement := {
  provider : GenerateContentParameters -> Completion GenerateContentResponse;
  random36 : string;
  now : Z
}.

(** ** generateSingleImage *)

Definition LF : string := String "010"%char EmptyString.

(** [Math.random().toString(36).substring(2, 15)] *)
Definition generateId (s : Settlement) : string := String.substring 2 13 (random36 s).

Definition modelId : string := "gemini-3-pro-image-preview".

Definition fullPrompt (prompt systemInstruction : string) : string :=
  if truthy systemInstruction
  then systemInstruction +:+ LF +:+ LF +:+ "User Request: " +:+ prompt
  else prompt.

(** The argument of [ai.models.generateContent]. *)
Definition request (prompt systemInstruction aspectRatio : string)
  : GenerateContentParameters :=
  {| model := modelId;
     contents_parts := [fullPrompt prompt systemInstruction];
     imageConfig := {| imageConfig_aspectRatio := aspectRatio; imageSize := "1K" |} |}.

(** [part.inlineData && part.inlineData.data] *)
Definition inline_payload (part : Part) : option string :=
  b ← inlineData part; d ← data b; if truthy d then Some d else None.

(** The [for ... of] loop with its [break]: the first truthy payload, or
    the initial [''] . *)
Fixpoint scan_parts (ps : list Part) : string :=
  match ps with
  | [] => ""
  | part :: rest =>
      match inline_payload part with
      | Some d => d
      | None => scan_parts rest
      end
  end.

(** Lines 56-66: [base64Data] after the parse.  Reading [.content] of a
    missing first candidate or [.parts] of a missing content throws. *)
Definition parse_response (response : GenerateContentResponse) : Completion string :=
  match candidates response with
  | None => Normal ""
  | Some [] => Throw (TypeError_reading "content")
  | Some (c :: _) =>
      match content c with
      | None => Throw (TypeError_reading "parts")
      | Some ct =>
          match parts ct with
          | None => Normal ""
          | Some ps => Normal (scan_parts ps)
          end
      end
  end.

Definition no_image_data : string := "No image data found in response".
Definition failed_to_generate : string := "Failed to generate image".

(** The body of the [try] block. *)
Definition try_block (prompt systemInstruction aspectRatio : string) (s : Settlement)
  : Completion GeneratedImage.t :=
  match provider s (request prompt systemInstruction aspectRatio) with
  | Throw e => Throw e
  | Normal response =>
      match parse_response response with
      | Throw e => Throw e
      | Normal base64Data =>
          if truthy base64Data
          then Normal {| GeneratedImage.id := generateId s;
                         GeneratedImage.base64 := "data:image/png;base64," +:+ base64Data;
                         GeneratedImage.prompt := prompt;
                         GeneratedImage.timestamp := now s;
                         GeneratedImage.selected := false;
                         GeneratedImage.aspectRatio := aspectRatio |}
          else Throw (new_Error no_image_data)
      end
  end.

(** The whole function: whatever the [try] block throws is rethrown as a
    new [Error] with the same message, or the fallback text; reading the
    message of a thrown [null] or [undefined] throws in its turn. *)
Definition generateSingleImage (prompt systemInstruction aspectRatio : string)
    (s : Settlement) : Completion GeneratedImage.t :=
  match try_block prompt systemInstruction aspectRatio s with
  | Normal img => Normal img
  | Throw error =>
      match message error with
      | Normal m => Throw (new_Error (or_else m failed_to_generate))
      | Throw type_error => Throw type_error
      end
  end.

(** ** generateBatchImages *)

(** The largest length an array can have, 2^32 - 1, and the error of
    asking for a longer one (the wording is V8's). *)
Definition MAX_ARRAY_LENGTH : Z := 4294967295.

Definition RangeError_invalid_array_length : Thrown := new_Error "Invalid array length".

(** A promise: not yet settled, fulfilled with a value, or rejected. *)
Inductive PromiseState (A : Type) :=
| Pending
| Fulfilled (v : A)
| Rejected (e : Thrown).
Arguments Pending {A}.
Arguments Fulfilled {A} v.
Arguments Rejected {A} e.

Definition settled_as {A} (c : Completion A) : PromiseState A :=
  match c with
  | Normal v => Fulfilled v
  | Throw e => Rejected e
  end.

(** One settlement: the provider call of the item launched at position
    [item] has settled, and the event loop runs that item's continuation.
    The continuation of [generateSingleImage] and the one of the closure
    awaiting it run without touching a variable another item can see in
    between, so both are one step. *)
Record Event := { item : nat; settlement : Settlement }.

Section Batch.
(** The caller's callback [(completed: number) => void]: it may keep
    state of its own, and it may throw. *)
Context {CbState : Type}.
Variable onProgress : Z -> CbState -> CbState * option Thrown.

(** What the closures of one batch share: the counter [completed], and
    the callback, with the arguments it has been invoked with so far. *)
Record Shared := {
  completed : Z;
  invoked : list Z;
  cb : CbState
}.

(** Code running on the shared variables, which may throw. *)
Definition M (A : Type) : Type := Shared -> Shared * Completion A.

Definition ret {A} (a : A) : M A := fun s => (s, Normal a).

Definition bind {A B} (m : M A) (k : A -> M B) : M B :=
  fun s =>
    match m s with
    | (s', Normal a) => k a s'
    | (s', Throw e) => (s', Throw e)
    end.

Definition try_catch {A} (body : M A) (handler : Thrown -> M A) : M A :=
  fun s =>
    match body s with
    | (s', Normal a) => (s', Normal a)
    | (s', Throw e) => handler e s'
    end.

(** [await p] for a promise that has settled as [c]. *)
Definition await {A} (c : Completion A) : M A := fun s => (s, c).

(** [completed++] *)
Definition incr_completed : M unit :=
  fun s => ({| completed := completed s + 1; invoked := invoked s; cb := cb s |},
            Normal tt).

(** [onProgress(completed)] *)
Definition call_onProgress : M unit :=
  fun s =>
    let (cb', thrown) := onProgress (completed s) (cb s) in
    ({| completed := completed s;
        invoked := invoked s ++ [completed s];
        cb := cb' |},
     match thrown with
     | None => Normal tt
     | Some e => Throw e
     end).

Notation "x <- m ;; k" := (bind m (fun x => k))
  (at level 100, m at next level, right associativity).
Notation "m ;; k" := (bind m (fun _ => k))
  (at level 100, right associativity).

(** The async closure mapped over the array (lines 102-114), from the
    point where [generateSingleImage] has settled as [g]. *)
Definition closure (g : Completion GeneratedImage.t) : M (option GeneratedImage.t) :=
  try_catch
    (img <- await g ;;
     incr_completed ;;
     call_onProgress ;;
     ret (Some img))
    (fun e =>
     incr_completed ;;
     call_onProgress ;;
     ret None).

(** The shared variables after one increment and one invocation. *)
Definition advance (sh : Shared) : Shared :=
  {| completed := completed sh + 1;
     invoked := invoked sh ++ [completed sh + 1];
     cb := (onProgress (completed sh + 1) (cb sh)).1 |}.

(** A batch in flight: the shared variables, the array [promises], and
    the rejection [Promise.all] has seen, which is the first in time. *)
Record Batch := {
  shared : Shared;
  promises : list (PromiseState (option GeneratedImage.t));
  rejection : option Thrown
}.

Variables prompt systemInstruction aspectRatio : string.

(** The state the callback is in when the batch starts. *)
Variable cb0 : CbState.

(** [Array.from({ length: count }).map(...)]: a negative length is
    clamped to zero, and every closure runs up to its [await] at once.
    For a length above [MAX_ARRAY_LENGTH] the array cannot be built:
    [Array.from] throws a [RangeError] before any item is launched, and
    the promise of [generateBatchImages] is rejected with it at once. *)
Definition launch (count : Z) : Batch :=
  {| shared := {| completed := 0; invoked := []; cb := cb0 |};
     promises := if count <=? MAX_ARRAY_LENGTH
                 then replicate (Z.to_nat count) Pending
                 else [];
     rejection := if count <=? MAX_ARRAY_LENGTH
                  then None
                  else Some RangeError_invalid_array_length |}.

(** The continuation of one item runs.  A promise settles once: an event
    for an item that is not pending, or was never launched, does nothing. *)
Definition settle (b : Batch) (ev : Event) : Batch :=
  match promises b !! item ev with
  | Some Pending =>
      let (sh, r) :=
        closure (generateSingleImage prompt systemInstruction aspectRatio (settlement ev))
                (shared b) in
      {| shared := sh;
         promises := <[item ev := settled_as r]> (promises b);
         rejection := match rejection b, r with
                      | None, Throw e => Some e
                      | seen, _ => seen
                      end |}
  | _ => b
  end.

Definition run (count : Z) (schedule : list Event) : Batch :=
  foldl settle (launch count) schedule.

(** The value a fulfilled promise holds. *)
Definition fulfilled_value {A} (p : PromiseState A) : option A :=
  match p with
  | Fulfilled v => Some v
  | _ => None
  end.

(** [settledResults.forEach(res => { if (res) results.push(res) })] *)
Definition filter_results (settledResults : list (option GeneratedImage.t))
  : list GeneratedImage.t :=
  omap (fun res => res) settledResults.

(** What the promise returned by [generateBatchImages] is once the
    schedule has run: rejected as soon as one closure's promise is,
    fulfilled once every one is fulfilled (with [settledResults] in the
    order of the array), pending otherwise. *)
Definition outcome (b : Batch) : PromiseState (list GeneratedImage.t) :=
  match rejection b with
  | Some e => Rejected e
  | None =>
      match mapM fulfilled_value (promises b) with
      | Some settledResults => Fulfilled (filter_results settledResults)
      | None => Pending
      end
  end.

Definition generateBatchImages (count : Z) (schedule : list Event)
  : PromiseState (list GeneratedImage.t) :=
  outcome (run count schedule).

(** The arguments [onProgress] has been invoked with, in order. *)
Definition progress_calls (count : Z) (schedule : list Event) : list Z :=
  invoked (shared (run count schedule)).

End Batch.

Arguments launch {CbState} cb0 count.
Arguments outcome {CbState} b.

(** ** The types module: configuration and status *)

Module GenerationConfig.
Record t := {
  systemPrompt : string;
  imageCount : Z;
  aspectRatio : string
}.
End GenerationConfig.

Module GenerationState.
Record t := {
  isLoading : bool;
  error : option string;
  progress : Z
}.
End GenerationState.

(** ** The credential gate *)

(** [window.aistudio] as the two functions read it: which of its methods
    exist, and what a call of each does at this moment. *)
Record AiStudio := {
  hasSelectedApiKey : option (Completion bool);
  openSelectKey : option (Completion unit)
}.

Definition checkApiKeySelection (aistudio : option AiStudio) : Completion bool :=
  match aistudio with
  | Some host =>
      match hasSelectedApiKey host with
      | Some answer => answer
      | None => Normal true
      end
  | None => Normal true
  end.

Definition promptApiKeySelection (aistudio : option AiStudio) : Completion unit :=
  match aistudio with
  | Some host =>
      match openSelectKey host with
      | Some answer => answer
      | None => Normal tt
      end
  | None => Normal tt
  end.

(** ** The application component

    The state of the component is the record of its [useState] cells; a
    handler is the function it applies to that state.  A handler reads
    the cells as they were when it was created and writes through the
    setters; no other handler runs in between. *)

Module App.

Record State := {
  apiKeyReady : bool;
  prompt : string;
  config : GenerationConfig.t;
  images : list GeneratedImage.t;
  status : GenerationState.t;
  fullscreenImage : option GeneratedImage.t
}.

Definition setApiKeyReady (v : bool) (s : State) : State :=
  {| apiKeyReady := v; prompt := prompt s; config := config s;
     images := images s; status := status s; fullscreenImage := fullscreenImage s |}.

Definition setPrompt (v : string) (s : State) : State :=
  {| apiKeyReady := apiKeyReady s; prompt := v; config := config s;
     images := images s; status := status s; fullscreenImage := fullscreenImage s |}.

Definition setImages (f : list GeneratedImage.t -> list GeneratedImage.t) (s : State)
  : State :=
  {| apiKeyReady := apiKeyReady s; prompt := prompt s; config := config s;
     images := f (images s); status := status s; fullscreenImage := fullscreenImage s |}.

Definition setStatus (f : GenerationState.t -> GenerationState.t) (s : State) : State :=
  {| apiKeyReady := apiKeyReady s; prompt := prompt s; config := config s;
     images := images s; status := f (status s); fullscreenImage := fullscreenImage s |}.

Definition setFullscreenImage (v : option GeneratedImage.t) (s : State) : State :=
  {| apiKeyReady := apiKeyReady s; prompt := prompt s; config := config s;
     images := images s; status := status s; fullscreenImage := v |}.

(** [{ ...prev, error: e }] and [{ ...prev, progress: p }] *)
Definition with_error (e : option string) (prev : GenerationState.t) : GenerationState.t :=
  {| GenerationState.isLoading := GenerationState.isLoading prev;
     GenerationState.error := e;
     GenerationState.progress := GenerationState.progress prev |}.

Definition with_progress (p : Z) (prev : GenerationState.t) : GenerationState.t :=
  {| GenerationState.isLoading := GenerationState.isLoading prev;
     GenerationState.error := GenerationState.error prev;
     GenerationState.progress := p |}.

Definition idle : GenerationState.t :=
  {| GenerationState.isLoading := false;
     GenerationState.error := None;
     GenerationState.progress := 0 |}.

Definition loading : GenerationState.t :=
  {| GenerationState.isLoading := true;
     GenerationState.error := None;
     GenerationState.progress := 0 |}.

Definition failed (msg : string) : GenerationState.t :=
  {| GenerationState.isLoading := false;
     GenerationState.error := Some msg;
     GenerationState.progress := 0 |}.

(** The effect run on mount. *)
Definition verifyKey (aistudio : option AiStudio) (s : State) : State :=
  match checkApiKeySelection aistudio with
  | Normal hasKey => setApiKeyReady hasKey s
  | Throw _ => s
  end.

Definition key_selection_failed : string :=
  "Failed to select API key. Please try again.".

Definition handleApiKeySelection (aistudio : option AiStudio) (s : State) : State :=
  match promptApiKeySelection aistudio with
  | Normal _ => setStatus (with_error None) (setApiKeyReady true s)
  | Throw _ => setStatus (with_error (Some key_selection_failed)) s
  end.

(** *** The gallery *)

(** [{ ...img, selected: !img.selected }] *)
Definition flip_selected (img : GeneratedImage.t) : GeneratedImage.t :=
  {| GeneratedImage.id := GeneratedImage.id img;
     GeneratedImage.base64 := GeneratedImage.base64 img;
     GeneratedImage.prompt := GeneratedImage.prompt img;
     GeneratedImage.timestamp := GeneratedImage.timestamp img;
     GeneratedImage.selected := negb (GeneratedImage.selected img);
     GeneratedImage.aspectRatio := GeneratedImage.aspectRatio img |}.

Definition toggleImageSelection (id : string) (s : State) : State :=
  setImages
    (fun prev => (fun img => if String.eqb (GeneratedImage.id img) id
                             then flip_selected img else img) <$> prev)
    s.

Definition deleteSelected (s : State) : State :=
  setImages (fun prev => List.filter (fun img => negb (GeneratedImage.selected img)) prev) s.

(** [images.filter(i => i.selected).length] *)
Definition selectedCount (s : State) : nat :=
  length (List.filter GeneratedImage.selected (images s)).

(** [confirmed] is the answer to the [confirm] dialog. *)
Definition clearAll (confirmed : bool) (s : State) : State :=
  if confirmed then setImages (fun _ => []) s else s.

(** What [downloadImage] makes the browser save: the link it clicks. *)
Record Download := { href : string; download : string }.

Definition downloadImage (img : GeneratedImage.t) : Download :=
  {| href := GeneratedImage.base64 img;
     download := "neogen-" +:+ pretty (GeneratedImage.timestamp img) +:+ ".png" |}.

(** The timers [downloadSelected] sets: delay in milliseconds and the
    download each one performs when it fires. *)
Definition downloadSelected (s : State) : list (Z * Download) :=
  imap (fun index img => (Z.of_nat index * 200, downloadImage img))
       (List.filter GeneratedImage.selected (images s)).

(** [images.findIndex(img => img.id === id)], with [None] for -1. *)
Definition findIndex (id : string) (l : list GeneratedImage.t) : option nat :=
  fst <$> list_find (fun img => GeneratedImage.id img = id) l.

(** [images[i]] for a number [i]; [None] is [undefined]. *)
Definition at_index (l : list GeneratedImage.t) (i : Z) : option GeneratedImage.t :=
  if i <? 0 then None else l !! Z.to_nat i.

Definition navigateFullscreen (direction : Z) (s : State) : State :=
  match fullscreenImage s with
  | None => s
  | Some current =>
      match findIndex (GeneratedImage.id current) (images s) with
      | None => s
      | Some currentIndex =>
          let newIndex := Z.of_nat currentIndex + direction in
          let newIndex := if newIndex <? 0
                          then Z.of_nat (length (images s)) - 1 else newIndex in
          let newIndex := if newIndex >=? Z.of_nat (length (images s))
                          then 0 else newIndex in
          setFullscreenImage (at_index (images s) newIndex) s
      end
  end.

(** The [keydown] listener. *)
Definition handleKeyDown (key : string) (s : State) : State :=
  match fullscreenImage s with
  | None => s
  | Some _ =>
      if String.eqb key "Escape" then setFullscreenImage None s
      else if String.eqb key "ArrowRight" then navigateFullscreen 1 s
      else if String.eqb key "ArrowLeft" then navigateFullscreen (-1) s
      else s
  end.

Definition getAspectClass (ratio : string) : string :=
  if String.eqb ratio "16:9" then "aspect-video"
  else if String.eqb ratio "9:16" then "aspect-[9/16]"
  else if String.eqb ratio "3:4" then "aspect-[3/4]"
  else if String.eqb ratio "4:3" then "aspect-[4/3]"
  else if String.eqb ratio "4:5" then "aspect-[4/5]"
  else "aspect-square".

(** *** Generation *)

(** [s.includes(pattern)] *)
Fixpoint includes (s pattern : string) : bool :=
  String.prefix pattern s ||
  match s with
  | EmptyString => false
  | String _ rest => includes rest pattern
  end.

(** A handler that awaits: still awaiting, returned, or thrown, with the
    state it has written so far. *)
Inductive Handler :=
| Awaiting (s : State)
| Returned (s : State)
| Threw (s : State) (e : Thrown).

Section Generate.
(** [String.prototype.trim], and [Math.round((completedCount /
    imageCount) * 100)] as a function of the two counts: the first
    follows the Unicode tables, the second is floating-point arithmetic. *)
Variable trim : string -> string.
Variable percent : Z -> Z -> Z.

(** The callback [handleGenerate] passes; what it keeps is the status. *)
Definition onProgress (imageCount : Z) (completedCount : Z) (st : GenerationState.t)
  : GenerationState.t * option Thrown :=
  (with_progress (percent completedCount imageCount) st, None).

(** [await Promise.all(promises)]: the batch runs until the promise of
    [generateBatchImages] is settled; what is left of the schedule runs
    after the handler has resumed. *)
Fixpoint await_batch (imageCount : Z) (prompt systemInstruction aspectRatio : string)
    (b : Batch) (schedule : list Event)
  : PromiseState (list GeneratedImage.t) * Batch * list Event :=
  match outcome b, schedule with
  | Pending, ev :: rest =>
      await_batch imageCount prompt systemInstruction aspectRatio
        (settle (onProgress imageCount) prompt systemInstruction aspectRatio b ev) rest
  | result, _ => (result, b, schedule)
  end.

Definition invalid_key : string := "API Key invalid or expired. Please re-select.".

(** [handleGenerate], run until the settlements of [schedule] are used up. *)
Definition handleGenerate (aistudio : option AiStudio) (schedule : list Event)
    (s : State) : Handler :=
  if negb (truthy (trim (prompt s))) then Returned s
  else
    let s1 := setStatus (fun _ => loading) s in
    let s2 := if apiKeyReady s then s1 else handleApiKeySelection aistudio s1 in
    let count := GenerationConfig.imageCount (config s) in
    let persona := GenerationConfig.systemPrompt (config s) in
    let ratio := GenerationConfig.aspectRatio (config s) in
    let '(result, b, rest) :=
      await_batch count (prompt s) persona ratio (launch (status s2) count) schedule in
    let s3 := setStatus (fun _ => cb (shared b)) s2 in
    (* the closures still pending settle after the handler has resumed *)
    let later (s' : State) : State :=
      setStatus
        (fun st =>
           cb (shared (foldl (settle (onProgress count) (prompt s) persona ratio)
                             {| shared := {| completed := completed (shared b);
                                             invoked := invoked (shared b);
                                             cb := st |};
                                promises := promises b;
                                rejection := rejection b |}
                             rest)))
        s' in
    match result with
    | Pending => Awaiting s3
    | Fulfilled newImages =>
        Returned (later (setPrompt ""
                          (setStatus (fun _ => idle)
                             (setImages (fun prev => newImages ++ prev) s3))))
    | Rejected error =>
        match message error with
        | Throw type_error => Threw (later s3) type_error
        | Normal None => Threw (later s3) (TypeError_reading "includes")
        | Normal (Some m) =>
            if includes m "Requested entity was not found"
            then Returned (later (setStatus (fun _ => failed invalid_key)
                                    (setApiKeyReady false s3)))
            else Returned (later (setStatus
                                    (fun _ => failed (or_else (Some m) "Generation failed"))
                                    s3))
        end
    end.

End Generate.

End App.

(** ** Vocabulary of the properties *)

(** The content parts [generateSingleImage] looks at: those of the first
    candidate. *)
Definition first_candidate_parts (response : GenerateContentResponse) : list Part :=
  match candidates response with
  | Some (c :: _) =>
      match content c with
      | Some ct => default [] (parts ct)
      | None => []
      end
  | _ => []
  end.

(** A part carrying inline image data in the words of the specification:
    inline data that is not empty and declares an image MIME type.  The
    code does not look at the MIME type; this is the notion C6 is stated
    with. *)
Definition inline_image_data (part : Part) : bool :=
  match inlineData part with
  | Some b =>
      match mimeType b, data b with
      | Some mime, Some d => String.prefix "image/" mime && truthy d
      | _, _ => false
      end
  | None => false
  end.

(** The response has the shape the parse expects: no candidate list at
    all, or a first candidate that has a content. *)
Definition has_content (response : GenerateContentResponse) : Prop :=
  match candidates response with
  | None => True
  | Some [] => False
  | Some (c :: _) => is_Some (content c)
  end.

(** The image one settlement yields, if the generation succeeds. *)
Definition generated (prompt systemInstruction aspectRatio : string) (ev : Event)
  : option GeneratedImage.t :=
  match generateSingleImage prompt systemInstruction aspectRatio (settlement ev) with
  | Normal img => Some img
  | Throw _ => None
  end.

(** The successful results in the order the items settled. *)
Definition settlement_order (prompt systemInstruction aspectRatio : string)
    (schedule : list Event) : list GeneratedImage.t :=
  omap (generated prompt systemInstruction aspectRatio) schedule.

(** The event that settles the item launched at position [i]. *)
Definition event_of (schedule : list Event) (i : nat) : option Event :=
  List.find (fun ev => Nat.eqb (item ev) i) schedule.

(** The successful results in the order the items were launched. *)
Definition request_order (prompt systemInstruction aspectRatio : string)
    (count : Z) (schedule : list Event) : list GeneratedImage.t :=
  omap (fun i => event_of schedule i ≫= generated prompt systemInstruction aspectRatio)
       (seq 0 (Z.to_nat count)).

(** The [count] items were launched (an array of that length can be
    built) and every one of them settles, and settles once. *)
Definition complete (count : Z) (schedule : list Event) : Prop :=
  count <= MAX_ARRAY_LENGTH /\
  Permutation (item <$> schedule) (seq 0 (Z.to_nat count)).

(** The settlements of distinct items that were launched. *)
Definition well_formed (count : Z) (schedule : list Event) : Prop :=
  NoDup (item <$> schedule) /\
  forall ev, ev ∈ schedule -> (item ev < Z.to_nat count)%nat.

(** The callback returns normally whenever it is invoked. *)
Definition returns_normally {CbState : Type}
    (onProgress : Z -> CbState -> CbState * option Thrown) : Prop :=
  forall c s, (onProgress c s).2 = None.

(** ** Concrete inputs *)

Module Sample.

Definition png (d : string) : Part :=
  {| text := None;
     inlineData := Some {| mimeType := Some "image/png"; data := Some d |} |}.

Definition plain (d : string) : Part :=
  {| text := None;
     inlineData := Some {| mimeType := Some "text/plain"; data := Some d |} |}.

Definition commentary (s : string) : Part := {| text := Some s; inlineData := None |}.

Definition response (ps : list Part) : GenerateContentResponse :=
  {| candidates := Some [ {| content := Some {| parts := Some ps |} |} ] |}.

(** The provider answers with a commentary and one PNG payload. *)
Definition succeeds (d : string) (t : Z) : Settlement :=
  {| provider := fun _ => Normal (response [commentary "here it is"; png d]);
     random36 := "0.k3j5h7g9d2s4a6q8w";
     now := t |}.

(** The provider answers with text only. *)
Definition text_only (t : Z) : Settlement :=
  {| provider := fun _ => Normal (response [commentary "sorry"]);
     random36 := "0.zzz";
     now := t |}.

(** The provider call fails. *)
Definition fails (t : Z) : Settlement :=
  {| provider := fun _ => Throw (ThrownValue (Some "quota exceeded"));
     random36 := "0.zzz";
     now := t |}.

(** The only inline data of the answer is plain text. *)
Definition plain_only (t : Z) : Settlement :=
  {| provider := fun _ => Normal (response [plain "aGVsbG8="]);
     random36 := "0.k3j5h7g9d2s4a6q8w";
     now := t |}.

(** A non-image payload precedes the image. *)
Definition plain_first (t : Z) : Settlement :=
  {| provider := fun _ => Normal (response [plain "aGVsbG8="; png "iVBORw0KGgo="]);
     random36 := "0.k3j5h7g9d2s4a6q8w";
     now := t |}.

(** A callback that only records: it never throws. *)
Definition quiet (c : Z) (s : unit) : unit * option Thrown := (s, None).

(** A callback that throws the first time it is invoked, and only then;
    its state counts its invocations. *)
Definition throws_once (c : Z) (s : nat) : nat * option Thrown :=
  (S s, match s with
        | O => Some (new_Error "render failed")
        | S _ => None
        end).

(** A callback that throws every time. *)
Definition throws_always (c : Z) (s : unit) : unit * option Thrown :=
  (s, Some (new_Error "render failed")).

(** Two items, both successful; the second launched settles first. *)
Definition second_first : list Event :=
  [ {| item := 1; settlement := succeeds "QkJC" 1001 |};
    {| item := 0; settlement := succeeds "QUFB" 1002 |} ].

(** One item, successful. *)
Definition one_success : list Event :=
  [ {| item := 0; settlement := succeeds "QUFB" 1001 |} ].

(** Three items: the first and third launched succeed, the second fails
    and settles first. *)
Definition mixed : list Event :=
  [ {| item := 1; settlement := fails 1000 |};
    {| item := 2; settlement := succeeds "Q0ND" 1001 |};
    {| item := 0; settlement := succeeds "QUFB" 1002 |} ].

End Sample.

Module SampleApp.

(** The prompts of the examples have no white space to trim. *)
Definition trim (s : string) : string := s.

(** The percentage rounded to the nearest integer, halves upwards. *)
Definition percent (completedCount imageCount : Z) : Z :=
  (200 * completedCount + imageCount) / (2 * imageCount).

(** The component with a prompt typed in, two images requested, and one
    selected image in the gallery. *)
Definition old_image : GeneratedImage.t :=
  {| GeneratedImage.id := "p0o9i8u7y6t5r";
     GeneratedImage.base64 := "data:image/png;base64,T0xE";
     GeneratedImage.prompt := "a dog";
     GeneratedImage.timestamp := 900;
     GeneratedImage.selected := true;
     GeneratedImage.aspectRatio := "4:3" |}.

Definition typed : App.State :=
  {| App.apiKeyReady := false;
     App.prompt := "a cat";
     App.config := {| GenerationConfig.systemPrompt := "";
                      GenerationConfig.imageCount := 2;
                      GenerationConfig.aspectRatio := "1:1" |};
     App.images := [old_image];
     App.status := App.idle;
     App.fullscreenImage := None |}.

(** A host whose key dialog fails. *)
Definition dialog_fails : option AiStudio :=
  Some {| hasSelectedApiKey := Some (Normal false);
          openSelectKey := Some (Throw (ThrownValue (Some "dismissed"))) |}.

(** Both items fail with the error of an invalid key. *)
Definition both_fail : list Event :=
  [ {| item := 1;
       settlement := {| provider := fun _ =>
                          Throw (ThrownValue (Some "Requested entity was not found."));
                        random36 := "0.zzz"; now := 1000 |} |};
    {| item := 0;
       settlement := {| provider := fun _ =>
                          Throw (ThrownValue (Some "Requested entity was not found."));
                        random36 := "0.zzz"; now := 1001 |} |} ].

(** The same component asked for more images than an array can hold. *)
Definition oversized : App.State :=
  {| App.apiKeyReady := false;
     App.prompt := "a cat";
     App.config := {| GenerationConfig.systemPrompt := "";
                      GenerationConfig.imageCount := 4294967296;
                      GenerationConfig.aspectRatio := "1:1" |};
     App.images := [old_image];
     App.status := App.idle;
     App.fullscreenImage := None |}.

End SampleApp.

(** * Properties of [generateSingleImage] *)

Lemma truthy_nonempty (s : string) : truthy s = true <-> s ≠ "".
Proof. destruct s; simpl; split; congruence. Qed.

Lemma scan_parts_none (ps : list Part) :
  Forall (fun part => inline_payload part = None) ps -> scan_parts ps = "".
Proof.
  induction 1 as [|part rest Hpart _ IH]; simpl; [done|].
  by rewrite Hpart.
Qed.

Lemma scan_parts_first (pre post : list Part) (part : Part) (d : string) :
  Forall (fun q => inline_payload q = None) pre ->
  inline_payload part = Some d ->
  scan_parts (pre ++ part :: post) = d.
Proof.
  intros Hpre Hpart. induction Hpre as [|q rest Hq _ IH]; simpl.
  - by rewrite Hpart.
  - by rewrite Hq.
Qed.

(** What a successful call has gone through. *)
Lemma generateSingleImage_Normal (prompt systemInstruction aspectRatio : string)
    (s : Settlement) (img : GeneratedImage.t) :
  generateSingleImage prompt systemInstruction aspectRatio s = Normal img ->
  exists response payload,
    provider s (request prompt systemInstruction aspectRatio) = Normal response /\
    parse_response response = Normal payload /\
    truthy payload = true /\
    img = {| GeneratedImage.id := generateId s;
             GeneratedImage.base64 := "data:image/png;base64," +:+ payload;
             GeneratedImage.prompt := prompt;
             GeneratedImage.timestamp := now s;
             GeneratedImage.selected := false;
             GeneratedImage.aspectRatio := aspectRatio |}.
Proof.
  unfold generateSingleImage, try_block.
  destruct (provider s _) as [response|e] eqn:Hresp; [|by destruct (message e)].
  destruct (parse_response response) as [payload|e] eqn:Hparse;
    [|by destruct (message e)].
  destruct (truthy payload) eqn:Hp; [|done].
  intros [= <-]. by exists response, payload.
Qed.



(** C6 as stated fails: the only inline data of the answer declares
    text/plain, so no part carries inline image data, and the call
    succeeds with that data as its payload. *)
Lemma no_image_data_refuted :
  ~ (forall (prompt systemInstruction aspectRatio : string) (s : Settlement)
            (response : GenerateContentResponse),
        provider s (request prompt systemInstruction aspectRatio) = Normal response ->
        Forall (fun part => inline_image_data part = false)
               (first_candidate_parts response) ->
        exists e, generateSingleImage prompt systemInstruction aspectRatio s = Throw e).
Proof.
  intros H.
  destruct (H "a cat" "" "1:1" (Sample.plain_only 7)
              (Sample.response [Sample.plain "aGVsbG8="]) eq_refl) as [e He].
  - repeat constructor.
  - vm_compute in He. discriminate He.
Qed.

(** C6 (amended): a response in which no part of the first candidate has
    inline data that is not empty, whatever MIME type it declares, makes
    the call fail, never succeed; with the message "No image data found
    in response" whenever the response has a content (or no candidates),
    be its part list full of text, empty or absent. *)
Theorem no_payload_fails (prompt systemInstruction aspectRatio : string)
    (s : Settlement) (response : GenerateContentResponse) :
  provider s (request prompt systemInstruction aspectRatio) = Normal response ->
  (forall part b d,
      part ∈ first_candidate_parts response ->
      inlineData part = Some b -> data b = Some d -> d = "") ->
  (exists e, generateSingleImage prompt systemInstruction aspectRatio s = Throw e) /\
  (has_content response ->
   generateSingleImage prompt systemInstruction aspectRatio s
   = Throw (new_Error no_image_data)).
Proof.
  intros Hresp Hempty.
  assert (Hparts : Forall (fun part => inline_payload part = None)
                          (first_candidate_parts response)).
  { apply Forall_forall. intros part Hin. unfold inline_payload.
    destruct (inlineData part) as [b|] eqn:Hb; [|done]. simpl.
    destruct (data b) as [d|] eqn:Hd; [|done]. simpl.
    by rewrite (Hempty part b d Hin Hb Hd). }
  clear Hempty.
  unfold generateSingleImage, try_block. rewrite Hresp.
  unfold parse_response, first_candidate_parts, has_content in *.
  destruct (candidates response) as [[|c cs]|]; simpl.
  - split; [eauto | done].
  - destruct (content c) as [ct|]; simpl.
    + destruct (parts ct) as [ps|]; simpl in *.
      * rewrite (scan_parts_none ps Hparts). simpl. eauto.
      * eauto.
    + split; [eauto | by intros [? ?]].
  - eauto.
Qed.

Lemma no_payload_fails_witness :
  generateSingleImage "a cat" "" "1:1" (Sample.text_only 7)
  = Throw (new_Error no_image_data).
Proof.
  refine (proj2 (no_payload_fails "a cat" "" "1:1" (Sample.text_only 7)
                   (Sample.response [Sample.commentary "sorry"]) _ _) _).
  - reflexivity.
  - intros part b d Hin%list_elem_of_singleton Hb. subst part. discriminate Hb.
  - by exists {| parts := Some [Sample.commentary "sorry"] |}.
Defined.

(** C7: a successful call returns the requested aspect ratio, whatever
    the provider answered, the payload of the response behind the prefix
    "data:image/png;base64,", the prompt, the identifier stamped for this
    call (the random text drawn for it, from its third character on and
    thirteen characters at most) and the clock reading of this call. *)
Theorem success_record (prompt systemInstruction aspectRatio : string)
    (s : Settlement) (img : GeneratedImage.t) :
  generateSingleImage prompt systemInstruction aspectRatio s = Normal img ->
  GeneratedImage.aspectRatio img = aspectRatio /\
  (exists response payload,
      provider s (request prompt systemInstruction aspectRatio) = Normal response /\
      parse_response response = Normal payload /\
      payload ≠ "" /\
      GeneratedImage.base64 img = "data:image/png;base64," +:+ payload) /\
  GeneratedImage.prompt img = prompt /\
  GeneratedImage.id img = String.substring 2 13 (random36 s) /\
  GeneratedImage.timestamp img = now s.
Proof.
  intros (response & payload & Hresp & Hparse & Hp & ->)%generateSingleImage_Normal.
  simpl. repeat split; [].
  exists response, payload. by rewrite <- truthy_nonempty.
Qed.

Lemma success_record_witness :
  let img := {| GeneratedImage.id := "k3j5h7g9d2s4a";
                GeneratedImage.base64 := "data:image/png;base64,QUFB";
                GeneratedImage.prompt := "a cat";
                GeneratedImage.timestamp := 1001;
                GeneratedImage.selected := false;
                GeneratedImage.aspectRatio := "16:9" |} in
  generateSingleImage "a cat" "" "16:9" (Sample.succeeds "QUFB" 1001) = Normal img /\
  GeneratedImage.aspectRatio img = "16:9" /\
  GeneratedImage.id img = generateId (Sample.succeeds "QUFB" 1001) /\
  GeneratedImage.timestamp img = 1001.
Proof.
  intros img.
  assert (H : generateSingleImage "a cat" "" "16:9" (Sample.succeeds "QUFB" 1001)
              = Normal img) by reflexivity.
  destruct (success_record _ _ _ _ _ H) as (Hratio & _ & _ & Hid & Htime).
  repeat split; assumption.
Defined.

(** C9: the first part with a non-empty inline payload is taken whatever
    MIME type it declares, and the result is labelled as a PNG; parts
    after it, image or not, are not looked at. *)
Theorem first_payload_any_mime (prompt systemInstruction aspectRatio : string)
    (s : Settlement) (response : GenerateContentResponse)
    (c : Candidate) (cs : list Candidate) (ct : Content)
    (pre post : list Part) (tx mime : option string) (d : string) :
  provider s (request prompt systemInstruction aspectRatio) = Normal response ->
  candidates response = Some (c :: cs) ->
  content c = Some ct ->
  parts ct = Some (pre ++ {| text := tx;
                             inlineData := Some {| mimeType := mime; data := Some d |} |}
                       :: post) ->
  Forall (fun part => inline_payload part = None) pre ->
  d ≠ "" ->
  generateSingleImage prompt systemInstruction aspectRatio s
  = Normal {| GeneratedImage.id := generateId s;
              GeneratedImage.base64 := "data:image/png;base64," +:+ d;
              GeneratedImage.prompt := prompt;
              GeneratedImage.timestamp := now s;
              GeneratedImage.selected := false;
              GeneratedImage.aspectRatio := aspectRatio |}.
Proof.
  intros Hresp Hcs Hct Hps Hpre Hd%truthy_nonempty.
  unfold generateSingleImage, try_block, parse_response.
  rewrite Hresp, Hcs, Hct, Hps.
  rewrite (scan_parts_first pre post _ d Hpre).
  - by rewrite Hd.
  - unfold inline_payload; simpl. by rewrite Hd.
Qed.

Lemma first_payload_any_mime_witness :
  generateSingleImage "a cat" "" "1:1" (Sample.plain_first 1001)
  = Normal {| GeneratedImage.id := "k3j5h7g9d2s4a";
              GeneratedImage.base64 := "data:image/png;base64,aGVsbG8=";
              GeneratedImage.prompt := "a cat";
              GeneratedImage.timestamp := 1001;
              GeneratedImage.selected := false;
              GeneratedImage.aspectRatio := "1:1" |}.
Proof.
  apply (first_payload_any_mime "a cat" "" "1:1" (Sample.plain_first 1001)
           (Sample.response [Sample.plain "aGVsbG8="; Sample.png "iVBORw0KGgo="])
           {| content := Some {| parts := Some [Sample.plain "aGVsbG8=";
                                               Sample.png "iVBORw0KGgo="] |} |}
           [] {| parts := Some [Sample.plain "aGVsbG8="; Sample.png "iVBORw0KGgo="] |}
           [] [Sample.png "iVBORw0KGgo="] None (Some "text/plain") "aGVsbG8=").
  - reflexivity.
  - reflexivity.
  - reflexivity.
  - reflexivity.
  - constructor.
  - discriminate.
Defined.

(** * Properties of [generateBatchImages] *)

Section BatchProperties.
Context {CbState : Type}.
Variable onProgress : Z -> CbState -> CbState * option Thrown.
Variables prompt systemInstruction aspectRatio : string.

Local Abbreviation step := (settle onProgress prompt systemInstruction aspectRatio).
Local Abbreviation image_of := (generated prompt systemInstruction aspectRatio).
Local Abbreviation next := (advance onProgress).
Local Abbreviation single ev :=
  (generateSingleImage prompt systemInstruction aspectRatio (settlement ev)).

(** ** One closure *)

(** The [catch] block of the closure. *)
Lemma closure_Throw (e : Thrown) (sh : Shared) :
  closure onProgress (Throw e) sh
  = (next sh,
     match (onProgress (completed sh + 1) (cb sh)).2 with
     | None => Normal None
     | Some e' => Throw e'
     end).
Proof.
  unfold closure, try_catch, bind, await, incr_completed, call_onProgress, ret, advance.
  simpl. destruct (onProgress (completed sh + 1) (cb sh)) as [s' [e'|]]; done.
Qed.

(** The [try] block falls into the [catch] block when the callback throws. *)
Lemma closure_Normal (img : GeneratedImage.t) (sh : Shared) :
  closure onProgress (Normal img) sh
  = match (onProgress (completed sh + 1) (cb sh)).2 with
    | None => (next sh, Normal (Some img))
    | Some _ =>
        (next (next sh),
         match (onProgress (completed sh + 1 + 1) (cb (next sh))).2 with
         | None => Normal None
         | Some e' => Throw e'
         end)
    end.
Proof.
  unfold closure, try_catch, bind, await, incr_completed, call_onProgress, ret, advance.
  simpl. destruct (onProgress (completed sh + 1) (cb sh)) as [s' [e'|]]; simpl; [|done].
  destruct (onProgress (completed sh + 1 + 1) s') as [s'' [e''|]]; done.
Qed.

(** An image leaves the closure only if the generation produced it. *)
Lemma closure_image (g : Completion GeneratedImage.t) (sh : Shared) (img : GeneratedImage.t) :
  (closure onProgress g sh).2 = Normal (Some img) -> g = Normal img.
Proof.
  destruct g as [img'|e].
  - rewrite closure_Normal.
    destruct ((onProgress (completed sh + 1) (cb sh)).2).
    + destruct ((onProgress (completed sh + 1 + 1) (cb (next sh))).2);
        simpl; congruence.
    + simpl; congruence.
  - rewrite closure_Throw.
    destruct ((onProgress (completed sh + 1) (cb sh)).2); simpl; congruence.
Qed.

(** Every closure invokes the callback at least once. *)
Lemma closure_invokes (g : Completion GeneratedImage.t) (sh : Shared) :
  (length (invoked sh) < length (invoked (closure onProgress g sh).1))%nat.
Proof.
  destruct g as [img|e].
  - rewrite closure_Normal.
    destruct ((onProgress (completed sh + 1) (cb sh)).2); simpl;
      rewrite ?length_app; simpl; lia.
  - rewrite closure_Throw. simpl. rewrite length_app. simpl. lia.
Qed.

(** ** One settlement *)

Lemma settle_pending (b : Batch) (ev : Event) :
  promises b !! item ev = Some Pending ->
  step b ev
  = {| shared := (closure onProgress (single ev) (shared b)).1;
       promises := <[item ev := settled_as (closure onProgress (single ev) (shared b)).2]>
                     (promises b);
       rejection := match rejection b, (closure onProgress (single ev) (shared b)).2 with
                    | None, Throw e => Some e
                    | seen, _ => seen
                    end |}.
Proof.
  intros Hp. unfold settle. rewrite Hp.
  by destruct (closure onProgress (single ev) (shared b)).
Qed.

(** A settlement writes the promise of its own item only. *)
Lemma settle_other (b : Batch) (ev : Event) (i : nat) :
  item ev ≠ i -> promises (step b ev) !! i = promises b !! i.
Proof.
  intros Hne. unfold settle.
  destruct (promises b !! item ev) as [[| |]|]; try done.
  destruct (closure _ _ _). simpl. by rewrite list_lookup_insert_ne.
Qed.

(** The rejection [Promise.all] has seen stays. *)
Lemma settle_rejection (b : Batch) (ev : Event) (e : Thrown) :
  rejection b = Some e -> rejection (step b ev) = Some e.
Proof.
  intros Hr. unfold settle.
  destruct (promises b !! item ev) as [[| |]|]; try done.
  destruct (closure _ _ _). simpl. by rewrite Hr.
Qed.

Lemma foldl_settle_rejection (schedule : list Event) (b : Batch) (e : Thrown) :
  rejection b = Some e -> rejection (foldl step b schedule) = Some e.
Proof.
  revert b. induction schedule as [|ev rest IH]; intros b Hr; simpl; [done|].
  by apply IH, settle_rejection.
Qed.

(** A promise no event of the schedule is for keeps its state. *)
Lemma foldl_settle_other (schedule : list Event) (b : Batch) (i : nat) :
  i ∉ item <$> schedule ->
  promises (foldl step b schedule) !! i = promises b !! i.
Proof.
  revert b. induction schedule as [|ev rest IH]; intros b Hi; simpl; [done|].
  rewrite fmap_cons, not_elem_of_cons in Hi. destruct Hi as [Hne Hi].
  rewrite IH by done. by apply settle_other.
Qed.

(** A settled promise is not settled again. *)
Lemma settle_settled (b : Batch) (ev : Event) (i : nat)
    (p : PromiseState (option GeneratedImage.t)) :
  promises b !! i = Some p -> p ≠ Pending -> promises (step b ev) !! i = Some p.
Proof.
  intros Hp Hne. destruct (decide (item ev = i)) as [<-|Hi].
  - unfold settle. rewrite Hp. by destruct p.
  - by rewrite settle_other.
Qed.

Lemma foldl_settle_settled (schedule : list Event) (b : Batch) (i : nat)
    (p : PromiseState (option GeneratedImage.t)) :
  promises b !! i = Some p -> p ≠ Pending ->
  promises (foldl step b schedule) !! i = Some p.
Proof.
  revert b. induction schedule as [|ev rest IH]; intros b Hp Hne; simpl; [done|].
  apply IH; [|done]. by apply settle_settled.
Qed.

(** ** Where a returned image comes from *)

Lemma settle_provenance (b : Batch) (ev : Event) (i : nat) (img : GeneratedImage.t) :
  promises (step b ev) !! i = Some (Fulfilled (Some img)) ->
  promises b !! i = Some (Fulfilled (Some img)) \/
  (item ev = i /\ single ev = Normal img).
Proof.
  destruct (decide (item ev = i)) as [<-|Hne]; [|rewrite settle_other by done; auto].
  destruct (promises b !! item ev) as [p|] eqn:Hp.
  - assert (p = Pending \/ p ≠ Pending) as [->|Hset]
      by (destruct p; [by left | by right | by right]).
    + rewrite settle_pending by done. simpl.
      rewrite list_lookup_insert_eq by (by eapply lookup_lt_Some).
      intros [= Hc]. right. split; [done|].
      apply (closure_image _ (shared b)).
      by destruct (closure onProgress (single ev) (shared b)).2 as [v|e]; simplify_eq/=.
    + rewrite (settle_settled b ev _ p) by done. auto.
  - unfold settle. rewrite Hp. congruence.
Qed.

Lemma foldl_settle_provenance (schedule : list Event) (b : Batch) (i : nat)
    (img : GeneratedImage.t) :
  promises (foldl step b schedule) !! i = Some (Fulfilled (Some img)) ->
  promises b !! i = Some (Fulfilled (Some img)) \/
  (exists ev, ev ∈ schedule /\ item ev = i /\ single ev = Normal img).
Proof.
  revert b. induction schedule as [|ev rest IH]; intros b; simpl; [auto|].
  intros [Hhere | (ev' & Hin & Hi & Hgen)]%IH.
  - apply settle_provenance in Hhere as [? | [? ?]]; [auto|].
    right. exists ev. split; [left | done].
  - right. exists ev'. split; [by right | done].
Qed.

(** The list [forEach] builds keeps the order of the array: its elements
    sit at increasing positions of [settledResults]. *)
Lemma filter_results_positions (settledResults : list (option GeneratedImage.t)) :
  exists positions : list nat,
    StronglySorted lt positions /\
    Forall2 (fun i img => settledResults !! i = Some (Some img))
            positions (filter_results settledResults).
Proof.
  induction settledResults as [|res rest (positions & Hsorted & Hall)].
  - exists []. split; constructor.
  - assert (Hshift : StronglySorted lt (S <$> positions)).
    { clear Hall. induction Hsorted as [|i js _ IH Hlt]; simpl; constructor; [done|].
      apply Forall_fmap. eapply Forall_impl; [exact Hlt|]. simpl. lia. }
    assert (Hrest : Forall2 (fun i img => (res :: rest) !! i = Some (Some img))
                            (S <$> positions) (filter_results rest)).
    { apply Forall2_fmap_l. eapply Forall2_impl; [exact Hall|]. done. }
    destruct res as [img|]; simpl.
    + exists (0%nat :: (S <$> positions)). split.
      * constructor; [done|]. apply Forall_fmap, Forall_forall. simpl. lia.
      * by constructor.
    + by exists (S <$> positions).
Qed.

Lemma outcome_Fulfilled (b : @Batch CbState) (l : list GeneratedImage.t) :
  outcome b = Fulfilled l ->
  exists settledResults,
    rejection b = None /\
    Forall2 (fun p v => p = Fulfilled v) (promises b) settledResults /\
    l = filter_results settledResults.
Proof.
  unfold outcome. destruct (rejection b); [done|].
  destruct (mapM fulfilled_value (promises b)) as [vs|] eqn:Hm; [|done].
  intros [= <-]. exists vs. split; [done|]. split; [|done].
  apply mapM_Some in Hm. eapply Forall2_impl; [exact Hm|].
  intros [|v|e] v'; simpl; congruence.
Qed.

(** ** The order of the returned list *)

Variable cb0 : CbState.

Local Abbreviation batch count schedule :=
  (generateBatchImages onProgress prompt systemInstruction aspectRatio cb0 count schedule).
Local Abbreviation calls count schedule :=
  (progress_calls onProgress prompt systemInstruction aspectRatio cb0 count schedule).
Local Abbreviation state count schedule :=
  (run onProgress prompt systemInstruction aspectRatio cb0 count schedule).

Lemma launch_lookup (count : Z) (i : nat)
    (p : PromiseState (option GeneratedImage.t)) :
  promises (launch cb0 count) !! i = Some p -> p = Pending /\ (i < Z.to_nat count)%nat.
Proof.
  simpl. destruct (count <=? MAX_ARRAY_LENGTH); [|done].
  by intros [-> ?]%lookup_replicate.
Qed.

(** When the array can be built, nothing is rejected at the start and
    every item is pending. *)
Lemma launch_fits (count : Z) :
  count <= MAX_ARRAY_LENGTH ->
  promises (launch cb0 count) = replicate (Z.to_nat count) Pending /\
  rejection (launch cb0 count) = None.
Proof. intros Hfits%Z.leb_le. simpl. by rewrite Hfits. Qed.

(** C1 (amended): the list [generateBatchImages] resolves with is in
    request order.  Its elements are results of items at strictly
    increasing launch positions, each the successful result of the
    settlement of the item at that position, whatever the order in which
    the items settled. *)
Theorem batch_in_request_order (count : Z) (schedule : list Event)
    (l : list GeneratedImage.t) :
  batch count schedule = Fulfilled l ->
  exists positions : list nat,
    StronglySorted lt positions /\
    Forall2 (fun i img =>
               exists ev, ev ∈ schedule /\ item ev = i /\ single ev = Normal img)
            positions l.
Proof.
  intros (settledResults & _ & Hall & ->)%outcome_Fulfilled.
  destruct (filter_results_positions settledResults) as (positions & Hsorted & Hpos).
  exists positions. split; [done|].
  eapply Forall2_impl; [exact Hpos|]. intros i img Hi. simpl in Hi.
  destruct (Forall2_lookup_r _ _ _ _ _ Hall Hi) as (p & Hp & ->).
  apply foldl_settle_provenance in Hp as [Hp|?]; [|done].
  by apply launch_lookup in Hp as [? _].
Qed.

(** ** A callback that returns normally *)

Lemma closure_quiet (g : Completion GeneratedImage.t) (sh : Shared) :
  returns_normally onProgress ->
  closure onProgress g sh
  = (next sh, Normal match g with
                     | Normal img => Some img
                     | Throw _ => None
                     end).
Proof.
  intros Hq. destruct g as [img|e].
  - by rewrite closure_Normal, Hq.
  - by rewrite closure_Throw, Hq.
Qed.

Lemma settle_quiet (b : Batch) (ev : Event) :
  returns_normally onProgress ->
  promises b !! item ev = Some Pending ->
  step b ev
  = {| shared := next (shared b);
       promises := <[item ev := Fulfilled (image_of ev)]> (promises b);
       rejection := rejection b |}.
Proof.
  intros Hq Hp. rewrite settle_pending by done. rewrite closure_quiet by done.
  unfold generated. simpl. destruct (single ev), (rejection b); done.
Qed.

Lemma event_of_cons (ev : Event) (rest : list Event) (i : nat) :
  event_of (ev :: rest) i = if Nat.eqb (item ev) i then Some ev else event_of rest i.
Proof. reflexivity. Qed.

Lemma event_of_None (schedule : list Event) (i : nat) :
  i ∉ item <$> schedule -> event_of schedule i = None.
Proof.
  induction schedule as [|ev rest IH]; [done|].
  rewrite fmap_cons, not_elem_of_cons. intros [Hne Hi].
  unfold event_of in *. simpl.
  destruct (Nat.eqb_spec (item ev) i); [congruence | auto].
Qed.

Lemma event_of_elem (schedule : list Event) (ev : Event) :
  NoDup (item <$> schedule) -> ev ∈ schedule -> event_of schedule (item ev) = Some ev.
Proof.
  induction schedule as [|ev' rest IH]; [by intros _ ?%elem_of_nil|].
  rewrite fmap_cons, NoDup_cons. intros [Hfresh Hnd] Hin.
  unfold event_of in *. simpl.
  apply elem_of_cons in Hin as [->|Hin]; [by rewrite Nat.eqb_refl|].
  destruct (Nat.eqb_spec (item ev') (item ev)) as [Heq|_]; [|auto].
  destruct Hfresh. rewrite Heq. by apply list_elem_of_fmap_2.
Qed.

(** A run of settlements of distinct pending items, under a callback
    that returns normally. *)
Lemma foldl_settle_quiet (schedule : list Event) (b : Batch) :
  returns_normally onProgress ->
  NoDup (item <$> schedule) ->
  (forall ev, ev ∈ schedule -> promises b !! item ev = Some Pending) ->
  completed (shared (foldl step b schedule))
  = completed (shared b) + Z.of_nat (length schedule) /\
  invoked (shared (foldl step b schedule))
  = invoked (shared b) ++ seqZ (completed (shared b) + 1) (Z.of_nat (length schedule)) /\
  rejection (foldl step b schedule) = rejection b /\
  forall i, promises (foldl step b schedule) !! i
            = match event_of schedule i with
              | Some ev => Some (Fulfilled (image_of ev))
              | None => promises b !! i
              end.
Proof.
  intros Hq. revert b. induction schedule as [|ev rest IH]; intros b Hnd Hpend.
  { simpl. rewrite Z.add_0_r, app_nil_r. done. }
  rewrite fmap_cons, NoDup_cons in Hnd. destruct Hnd as [Hfresh Hnd].
  assert (Hev : promises b !! item ev = Some Pending) by (apply Hpend; left).
  simpl foldl. rewrite (settle_quiet b ev Hq Hev).
  match goal with |- context [foldl _ ?b' rest] => set (b1 := b') end.
  destruct (IH b1 Hnd) as (Hc & Hi & Hr & Hp).
  { intros ev' Hin. simpl. rewrite list_lookup_insert_ne.
    - apply Hpend. by right.
    - intros Heq. apply Hfresh. rewrite Heq. by apply list_elem_of_fmap_2. }
  rewrite Hc, Hi, Hr. clear Hc Hi Hr.
  split; [|split; [|split]].
  - simpl. lia.
  - simpl. rewrite <- app_assoc. f_equal. simpl.
    rewrite (seqZ_cons (completed (shared b) + 1)) by lia.
    do 2 f_equal; lia.
  - done.
  - intros i. rewrite Hp, event_of_cons.
    destruct (Nat.eqb_spec (item ev) i) as [<-|Hne].
    + rewrite (event_of_None rest (item ev) Hfresh).
      apply list_lookup_insert_eq. by eapply lookup_lt_Some.
    + destruct (event_of rest i); [done|].
      subst b1. simpl. by rewrite list_lookup_insert_ne.
Qed.

(** ** Complete schedules *)

Lemma complete_NoDup (count : Z) (schedule : list Event) :
  complete count schedule -> NoDup (item <$> schedule).
Proof. intros [_ Hc]. rewrite Hc. apply NoDup_seq. Qed.

Lemma complete_length (count : Z) (schedule : list Event) :
  complete count schedule -> length schedule = Z.to_nat count.
Proof.
  intros [_ Hc]. apply Permutation_length in Hc.
  by rewrite length_fmap, length_seq in Hc.
Qed.

Lemma complete_launched (count : Z) (schedule : list Event) (ev : Event) :
  complete count schedule -> ev ∈ schedule ->
  promises (launch cb0 count) !! item ev = Some Pending.
Proof.
  intros [Hfits Hc] Hin. rewrite (proj1 (launch_fits count Hfits)).
  apply lookup_replicate_2.
  assert (Hi : item ev ∈ seq 0 (Z.to_nat count)).
  { rewrite <- Hc. by apply list_elem_of_fmap_2. }
  apply elem_of_seq in Hi. lia.
Qed.

Lemma complete_event_of (count : Z) (schedule : list Event) (i : nat) :
  complete count schedule -> (i < Z.to_nat count)%nat ->
  exists ev, ev ∈ schedule /\ item ev = i /\ event_of schedule i = Some ev.
Proof.
  intros Hc Hi.
  assert (Hin : i ∈ item <$> schedule).
  { destruct Hc as [_ Hc]. rewrite Hc. apply elem_of_seq. lia. }
  apply list_elem_of_fmap in Hin as (ev & -> & Hin).
  exists ev. repeat split; [done|].
  apply event_of_elem; [|done]. by eapply complete_NoDup.
Qed.

Lemma mapM_fulfilled_value (vs : list (option GeneratedImage.t)) :
  mapM fulfilled_value (Fulfilled <$> vs) = Some vs.
Proof. apply mapM_Some, Forall2_fmap_l, Forall2_same_length_lookup_2; naive_solver. Qed.

(** With a callback that returns normally, once every item has settled
    the callback has been invoked with 1, ..., count, and the batch is
    fulfilled with the successful results in request order. *)
Lemma quiet_batch (count : Z) (schedule : list Event) :
  returns_normally onProgress ->
  complete count schedule ->
  calls count schedule = seqZ 1 count /\
  completed (shared (state count schedule)) = Z.of_nat (Z.to_nat count) /\
  batch count schedule
  = Fulfilled (request_order prompt systemInstruction aspectRatio count schedule).
Proof.
  intros Hq Hc.
  destruct (foldl_settle_quiet schedule (launch cb0 count) Hq)
    as (Hcompleted & Hinvoked & Hrej & Hprom).
  { by eapply complete_NoDup. }
  { intros ev. by apply complete_launched. }
  rewrite (complete_length _ _ Hc) in Hcompleted, Hinvoked.
  destruct (launch_fits count (proj1 Hc)) as [Hprom0 Hrej0].
  split; [|split].
  - unfold progress_calls, run. rewrite Hinvoked. simpl.
    unfold seqZ. by rewrite Nat2Z.id.
  - unfold run. rewrite Hcompleted. simpl. lia.
  - unfold generateBatchImages, outcome, run. rewrite Hrej, Hrej0.
    assert (Hps : promises (foldl step (launch cb0 count) schedule)
                  = Fulfilled <$> ((fun i => event_of schedule i ≫= image_of)
                                     <$> seq 0 (Z.to_nat count))).
    { apply list_eq. intros i. rewrite Hprom, !list_lookup_fmap.
      destruct (decide (i < Z.to_nat count)%nat) as [Hi|Hi].
      - destruct (complete_event_of count schedule i Hc Hi) as (ev & _ & _ & Hev).
        rewrite lookup_seq_lt by done. simpl. by rewrite Hev.
      - rewrite event_of_None.
        + rewrite Hprom0. rewrite lookup_seq_ge by lia. simpl.
          apply lookup_replicate_None. lia.
        + destruct Hc as [_ Hc]. rewrite Hc, elem_of_seq. lia. }
    rewrite Hps, mapM_fulfilled_value. f_equal.
    unfold filter_results, request_order.
    generalize (seq 0 (Z.to_nat count)). intros l.
    induction l as [|i l IH]; [done|]. csimpl. rewrite IH. done.
Qed.

(** The same results as in settlement order, otherwise arranged. *)
Lemma request_order_Permutation (count : Z) (schedule : list Event) :
  complete count schedule ->
  request_order prompt systemInstruction aspectRatio count schedule
  ≡ₚ settlement_order prompt systemInstruction aspectRatio schedule.
Proof.
  intros Hc. unfold request_order, settlement_order.
  pose proof (complete_NoDup count schedule Hc) as Hnd.
  destruct Hc as [_ Hc]. rewrite <- Hc.
  assert (Heq : omap (fun i => event_of schedule i ≫= image_of) (item <$> schedule)
                = omap image_of schedule); [|by rewrite Heq].
  apply list_omap_ext, Forall2_fmap_l, Forall2_same_length_lookup_2; [done|].
  intros i ev ev' Hev Hev'. simplify_eq. simpl.
  rewrite (event_of_elem schedule ev Hnd); [done|].
  by eapply list_elem_of_lookup_2.
Qed.

Lemma settlement_order_length (schedule : list Event) :
  length (settlement_order prompt systemInstruction aspectRatio schedule)
  = length (filter (fun ev => is_Some (image_of ev)) schedule).
Proof.
  unfold settlement_order. induction schedule as [|ev rest IH]; [done|].
  csimpl. rewrite filter_cons.
  destruct (image_of ev) as [img|] eqn:Hev.
  - rewrite decide_True by eauto. simpl. by rewrite IH.
  - rewrite decide_False by (by intros [? ?]). done.
Qed.

(** With a callback that returns normally, a batch in which [k]
    generations succeed resolves with [k] images. *)
Corollary quiet_batch_successes (count : Z) (schedule : list Event) :
  returns_normally onProgress ->
  complete count schedule ->
  exists l,
    batch count schedule = Fulfilled l /\
    length l = length (settlement_order prompt systemInstruction aspectRatio schedule) /\
    (length l <= Z.to_nat count)%nat.
Proof.
  intros Hq Hc. destruct (quiet_batch count schedule Hq Hc) as (_ & _ & Hl).
  eexists. split; [exact Hl|].
  pose proof (request_order_Permutation count schedule Hc) as Hperm.
  apply Permutation_length in Hperm. split; [done|].
  rewrite Hperm, settlement_order_length, <- (complete_length count schedule Hc).
  apply length_filter.
Qed.

(** ** Any callback: counting invocations *)

(** Items of the rest of a complete schedule are still pending. *)
Lemma split_pending (count : Z) (pre post : list Event) (ev : Event) :
  complete count (pre ++ post) -> ev ∈ post ->
  promises (state count pre) !! item ev = Some Pending.
Proof.
  intros Hc Hin. unfold run. rewrite foldl_settle_other.
  - apply (complete_launched count (pre ++ post)); [done|].
    apply elem_of_app. by right.
  - apply complete_NoDup in Hc. rewrite fmap_app in Hc.
    apply NoDup_app in Hc as (_ & Hdisj & _).
    intros Hpre. apply (Hdisj _ Hpre). by apply list_elem_of_fmap_2.
Qed.

(** Every settlement of a pending item invokes the callback at least once. *)
Lemma foldl_settle_invoked (schedule : list Event) (b : Batch) :
  NoDup (item <$> schedule) ->
  (forall ev, ev ∈ schedule -> promises b !! item ev = Some Pending) ->
  (length (invoked (shared b)) + length schedule
   <= length (invoked (shared (foldl step b schedule))))%nat.
Proof.
  revert b. induction schedule as [|ev rest IH]; intros b Hnd Hpend; simpl; [lia|].
  rewrite fmap_cons, NoDup_cons in Hnd. destruct Hnd as [Hfresh Hnd].
  assert (Hev : promises b !! item ev = Some Pending) by (apply Hpend; left).
  specialize (IH (step b ev) Hnd).
  assert (Hgrow : (length (invoked (shared b)) < length (invoked (shared (step b ev))))%nat).
  { rewrite settle_pending by done. simpl. apply closure_invokes. }
  etrans; [|apply IH].
  - lia.
  - intros ev' Hin. rewrite settle_other.
    + apply Hpend. by right.
    + intros Heq. apply Hfresh. rewrite Heq. by apply list_elem_of_fmap_2.
Qed.

Lemma StronglySorted_lt_NoDup (positions : list nat) :
  StronglySorted lt positions -> NoDup positions.
Proof.
  induction 1 as [|i js _ IH Hlt]; constructor; [|done].
  intros Hin. rewrite Forall_forall in Hlt. specialize (Hlt i Hin). lia.
Qed.

(** A successful item whose closure nevertheless returned [null] makes
    the returned list shorter than the number of successful generations. *)
Lemma discarded_success (count : Z) (schedule : list Event) (ev : Event)
    (img : GeneratedImage.t) (l : list GeneratedImage.t) :
  ev ∈ schedule ->
  single ev = Normal img ->
  promises (state count schedule) !! item ev = Some (Fulfilled None) ->
  batch count schedule = Fulfilled l ->
  (length l < length (settlement_order prompt systemInstruction aspectRatio schedule))%nat.
Proof.
  intros Hin Hgen Hslot (settledResults & _ & Hall & ->)%outcome_Fulfilled.
  unfold run in *.
  destruct (filter_results_positions settledResults) as (positions & Hsorted & Hpos).
  rewrite <- (Forall2_length _ _ _ Hpos), settlement_order_length.
  set (successes := filter (fun ev => is_Some (image_of ev)) schedule).
  assert (Hsub : item ev :: positions ⊆+ item <$> successes).
  { apply NoDup_submseteq.
    - constructor; [|by apply StronglySorted_lt_NoDup].
      intros (k & Hk)%list_elem_of_lookup_1.
      destruct (Forall2_lookup_l _ _ _ _ _ Hpos Hk) as (img' & _ & Himg').
      destruct (Forall2_lookup_r _ _ _ _ _ Hall Himg') as (p & Hp & ->).
      congruence.
    - intros i [->|Hi]%elem_of_cons.
      + apply list_elem_of_fmap_2, list_elem_of_filter. split; [|done].
        unfold generated. rewrite Hgen. eauto.
      + apply list_elem_of_lookup_1 in Hi as (k & Hk).
        destruct (Forall2_lookup_l _ _ _ _ _ Hpos Hk) as (img' & _ & Himg').
        destruct (Forall2_lookup_r _ _ _ _ _ Hall Himg') as (p & Hp & ->).
        apply foldl_settle_provenance in Hp as [Hp|(ev' & Hin' & <- & Hgen')].
        * by apply launch_lookup in Hp as [? _].
        * apply list_elem_of_fmap_2, list_elem_of_filter. split; [|done].
          unfold generated. rewrite Hgen'. eauto. }
  apply submseteq_length in Hsub. rewrite length_fmap in Hsub. simpl in Hsub. lia.
Qed.

(** C10: when the callback throws on the invocation made for an item
    whose generation succeeded, the counter is incremented a second time
    and the callback invoked a second time for the same item, so that
    once every item has settled it has been invoked more than [count]
    times.  If the second invocation returns, the closure yields [null]
    and the list returned is shorter than the number of successful
    generations; if it throws too, the closure's promise is rejected and
    so is the promise of [generateBatchImages]. *)
Theorem callback_throws_on_success (count : Z) (pre post : list Event) (ev : Event)
    (img : GeneratedImage.t) (c : Z) (s1 : CbState) (e1 : Thrown) :
  complete count (pre ++ ev :: post) ->
  single ev = Normal img ->
  completed (shared (state count pre)) = c ->
  onProgress (c + 1) (cb (shared (state count pre))) = (s1, Some e1) ->
  completed (shared (state count (pre ++ [ev]))) = c + 2 /\
  invoked (shared (state count (pre ++ [ev])))
  = invoked (shared (state count pre)) ++ [c + 1; c + 2] /\
  (Z.to_nat count < length (calls count (pre ++ ev :: post)))%nat /\
  match (onProgress (c + 2) s1).2 with
  | None =>
      promises (state count (pre ++ ev :: post)) !! item ev = Some (Fulfilled None) /\
      forall l, batch count (pre ++ ev :: post) = Fulfilled l ->
        (length l < length (settlement_order prompt systemInstruction aspectRatio
                              (pre ++ ev :: post)))%nat
  | Some e2 =>
      promises (state count (pre ++ ev :: post)) !! item ev = Some (Rejected e2) /\
      exists e, batch count (pre ++ ev :: post) = Rejected e
  end.
Proof.
  intros Hc Hgen Hcount Hthrow.
  assert (Hin : ev ∈ pre ++ ev :: post) by (apply elem_of_app; right; left).
  assert (Hpend : promises (state count pre) !! item ev = Some Pending).
  { apply (split_pending count pre (ev :: post)); [done | left]. }
  (* the step of [ev] *)
  assert (Hstep : state count (pre ++ [ev])
                  = {| shared := next (next (shared (state count pre)));
                       promises := <[item ev := settled_as
                                       match (onProgress (c + 2) s1).2 with
                                       | None => Normal None
                                       | Some e2 => Throw e2
                                       end]> (promises (state count pre));
                       rejection := match rejection (state count pre),
                                          (onProgress (c + 2) s1).2 with
                                    | None, Some e2 => Some e2
                                    | seen, _ => seen
                                    end |}).
  { unfold run. rewrite foldl_snoc. fold (state count pre).
    rewrite settle_pending by done. rewrite Hgen, closure_Normal.
    rewrite Hcount, Hthrow. simpl. rewrite Hcount, Hthrow. simpl.
    replace (c + 1 + 1) with (c + 2) by lia.
    f_equal. by destruct (rejection (state count pre)), ((onProgress (c + 2) s1).2). }
  assert (Hsplit : state count (pre ++ ev :: post)
                   = foldl step (state count (pre ++ [ev])) post).
  { unfold run. by rewrite cons_middle, app_assoc, foldl_app. }
  assert (Hc' : complete count ((pre ++ [ev]) ++ post)).
  { by rewrite <- app_assoc. }
  split; [|split; [|split]].
  - rewrite Hstep. simpl. lia.
  - rewrite Hstep. simpl. rewrite Hcount, <- app_assoc. simpl.
    by replace (c + 1 + 1) with (c + 2) by lia.
  - unfold progress_calls. fold (state count (pre ++ ev :: post)). rewrite Hsplit.
    pose proof (complete_NoDup _ _ Hc') as Hnd.
    rewrite !fmap_app in Hnd. apply NoDup_app in Hnd as (Hnd1 & _ & Hnd2).
    apply NoDup_app in Hnd1 as (Hnd1 & _ & _).
    pose proof (foldl_settle_invoked post (state count (pre ++ [ev])) Hnd2) as Hpost.
    pose proof (foldl_settle_invoked pre (launch cb0 count) Hnd1) as Hpre.
    fold (state count pre) in Hpre.
    rewrite Hstep in Hpost at 1. simpl in Hpost, Hpre.
    rewrite !length_app in Hpost. simpl in Hpost.
    pose proof (complete_length _ _ Hc) as Hlen.
    rewrite length_app in Hlen. simpl in Hlen.
    assert (length pre <= length (invoked (shared (state count pre))))%nat.
    { apply Hpre. intros ev' Hin'. apply (complete_launched count (pre ++ ev :: post)); [done|].
      apply elem_of_app. by left. }
    assert (length (invoked (shared (state count pre))) + 1 + 1 + length post
            <= length (invoked (shared (foldl step (state count (pre ++ [ev])) post))))%nat.
    { apply Hpost. intros ev' Hin'. by apply (split_pending count (pre ++ [ev]) post). }
    lia.
  - assert (Hslot : promises (state count (pre ++ [ev])) !! item ev
                    = Some (settled_as match (onProgress (c + 2) s1).2 with
                                       | None => Normal None
                                       | Some e2 => Throw e2
                                       end)).
    { rewrite Hstep. simpl. apply list_lookup_insert_eq. by eapply lookup_lt_Some. }
    destruct ((onProgress (c + 2) s1).2) as [e2|] eqn:Hsecond; simpl in Hslot.
    + split.
      * rewrite Hsplit. by apply foldl_settle_settled.
      * assert (exists e, rejection (state count (pre ++ [ev])) = Some e) as [e He].
        { rewrite Hstep. simpl. destruct (rejection (state count pre)); eauto. }
        exists e. unfold generateBatchImages, outcome.
        fold (state count (pre ++ ev :: post)). rewrite Hsplit.
        by rewrite (foldl_settle_rejection post _ e He).
    + assert (Hfinal : promises (state count (pre ++ ev :: post)) !! item ev
                       = Some (Fulfilled None)).
      { rewrite Hsplit. by apply foldl_settle_settled. }
      split; [done|]. intros l Hl.
      by apply (discarded_success count _ ev img).
Qed.

(** ** The records returned *)

(** Every image of the returned list is the result of a successful
    generation settled by an event of the schedule. *)
Lemma batch_elements (count : Z) (schedule : list Event)
    (l : list GeneratedImage.t) (img : GeneratedImage.t) :
  batch count schedule = Fulfilled l -> img ∈ l ->
  exists ev, ev ∈ schedule /\ single ev = Normal img.
Proof.
  intros (settledResults & _ & Hall & ->)%outcome_Fulfilled.
  intros (res & Hres & ->)%list_elem_of_omap.
  apply list_elem_of_lookup_1 in Hres as (i & Hi).
  destruct (Forall2_lookup_r _ _ _ _ _ Hall Hi) as (p & Hp & ->).
  apply foldl_settle_provenance in Hp as [Hp|(ev & Hin & _ & Hgen)]; [|eauto].
  by apply launch_lookup in Hp as [? _].
Qed.

Lemma to_object_selected (img : GeneratedImage.t) :
  GeneratedImage.to_object img !! "selected"
  = Some (JBoolean (GeneratedImage.selected img)).
Proof. unfold GeneratedImage.to_object. by simplify_map_eq. Qed.

(** C8 (amended): every record returned by [generateSingleImage] or by
    [generateBatchImages] has the property "selected", and its value is
    false. *)
Theorem selected_is_false :
  (forall (s : Settlement) (img : GeneratedImage.t),
      generateSingleImage prompt systemInstruction aspectRatio s = Normal img ->
      GeneratedImage.to_object img !! "selected" = Some (JBoolean false)) /\
  (forall (count : Z) (schedule : list Event) (l : list GeneratedImage.t)
          (img : GeneratedImage.t),
      batch count schedule = Fulfilled l -> img ∈ l ->
      GeneratedImage.to_object img !! "selected" = Some (JBoolean false)).
Proof.
  assert (Hsingle : forall s img,
             generateSingleImage prompt systemInstruction aspectRatio s = Normal img ->
             GeneratedImage.to_object img !! "selected" = Some (JBoolean false)).
  { intros s img (response & payload & _ & _ & _ & ->)%generateSingleImage_Normal.
    by rewrite to_object_selected. }
  split; [done|].
  intros count schedule l img Hl Himg.
  destruct (batch_elements count schedule l img Hl Himg) as (ev & _ & Hgen).
  by eapply Hsingle.
Qed.

(** With nothing to launch the callback is never invoked and the batch
    is fulfilled with the empty list, whatever the callback. *)
Lemma no_items (count : Z) (schedule : list Event) :
  count <= 0 ->
  calls count schedule = [] /\ batch count schedule = Fulfilled [].
Proof.
  intros Hcount.
  assert (Hrun : state count schedule = launch cb0 count).
  { unfold run. generalize (launch_lookup count).
    generalize (launch cb0 count). intros b Hb.
    induction schedule as [|ev rest IH]; [done|]. simpl.
    assert (Hstep : step b ev = b); [|by rewrite Hstep].
    unfold settle. destruct (promises b !! item ev) as [p|] eqn:Hp; [|done].
    apply Hb in Hp as [_ ?]. lia. }
  unfold progress_calls, generateBatchImages. rewrite Hrun.
  split; [done|]. unfold outcome.
  destruct (launch_fits count) as [-> ->]; [unfold MAX_ARRAY_LENGTH; lia|].
  by replace (Z.to_nat count) with 0%nat by lia.
Qed.

End BatchProperties.

(** * The properties at concrete inputs *)

(** C1 as stated fails: two items succeed, the second launched settles
    first, and the returned list is in request order, which here is not
    the settlement order. *)
Lemma settlement_order_refuted :
  complete 2 Sample.second_first /\
  (2 <= length (settlement_order "a cat" "" "1:1" Sample.second_first))%nat /\
  generateBatchImages Sample.quiet "a cat" "" "1:1" tt 2 Sample.second_first
  = Fulfilled (request_order "a cat" "" "1:1" 2 Sample.second_first) /\
  generateBatchImages Sample.quiet "a cat" "" "1:1" tt 2 Sample.second_first
  ≠ Fulfilled (settlement_order "a cat" "" "1:1" Sample.second_first).
Proof.
  split; [|split; [|split]].
  - split; [unfold MAX_ARRAY_LENGTH; lia|]. simpl. apply perm_swap.
  - simpl. lia.
  - reflexivity.
  - intros H. vm_compute in H. discriminate H.
Qed.

Lemma batch_in_request_order_witness :
  exists positions : list nat,
    StronglySorted lt positions /\
    Forall2 (fun i img =>
               exists ev, ev ∈ Sample.second_first /\ item ev = i /\
                          generateSingleImage "a cat" "" "1:1" (settlement ev) = Normal img)
            positions
            (request_order "a cat" "" "1:1" 2 Sample.second_first).
Proof.
  apply (batch_in_request_order Sample.quiet "a cat" "" "1:1" tt 2 Sample.second_first).
  reflexivity.
Defined.

(** C8 as stated fails: a returned record does have the property
    "selected". *)
Lemma no_selected_refuted :
  ~ (forall (prompt systemInstruction aspectRatio : string) (s : Settlement)
            (img : GeneratedImage.t),
        generateSingleImage prompt systemInstruction aspectRatio s = Normal img ->
        GeneratedImage.to_object img !! "selected" = None).
Proof.
  intros H.
  specialize (H "a cat" "" "1:1" (Sample.succeeds "QUFB" 1001) _ eq_refl).
  vm_compute in H. discriminate H.
Qed.

Lemma selected_is_false_witness :
  GeneratedImage.to_object
    {| GeneratedImage.id := "k3j5h7g9d2s4a";
       GeneratedImage.base64 := "data:image/png;base64,QUFB";
       GeneratedImage.prompt := "a cat";
       GeneratedImage.timestamp := 1001;
       GeneratedImage.selected := false;
       GeneratedImage.aspectRatio := "1:1" |} !! "selected"
  = Some (JBoolean false).
Proof.
  apply (proj1 (selected_is_false Sample.quiet "a cat" "" "1:1" tt)
           (Sample.succeeds "QUFB" 1001)).
  reflexivity.
Defined.

(** C2 at a callback that throws on its first invocation: one item is
    requested, its generation succeeds, and the callback is invoked
    twice, with 1 and then with 2. *)
Theorem progress_invoked_twice :
  progress_calls Sample.throws_once "a cat" "" "1:1" 0%nat 1 Sample.one_success = [1; 2] /\
  complete 1 Sample.one_success.
Proof.
  split; [reflexivity|]. split; [unfold MAX_ARRAY_LENGTH; lia | reflexivity].
Qed.

(** C3 at the same input: the one generation succeeds, and the list
    returned is empty. *)
Theorem successful_image_dropped :
  length (settlement_order "a cat" "" "1:1" Sample.one_success) = 1%nat /\
  generateBatchImages Sample.throws_once "a cat" "" "1:1" 0%nat 1 Sample.one_success
  = Fulfilled [].
Proof. split; reflexivity. Qed.

(** C4 at a callback that throws every time: the batch is rejected with
    what the callback threw, be the item a success or a failure. *)
Theorem batch_rejected :
  generateBatchImages Sample.throws_always "a cat" "" "1:1" tt 1 Sample.one_success
  = Rejected (new_Error "render failed") /\
  generateBatchImages Sample.throws_always "a cat" "" "1:1" tt 1
    [ {| item := 0; settlement := Sample.fails 1001 |} ]
  = Rejected (new_Error "render failed").
Proof. split; reflexivity. Qed.

Lemma callback_throws_on_success_witness :
  (Z.to_nat 1 < length (progress_calls Sample.throws_once "a cat" "" "1:1" 0%nat 1
                          Sample.one_success))%nat /\
  (exists e, generateBatchImages Sample.throws_always "a cat" "" "1:1" tt 1
               Sample.one_success = Rejected e).
Proof.
  split.
  - refine (proj1 (proj2 (proj2
      (callback_throws_on_success Sample.throws_once "a cat" "" "1:1" 0%nat 1
         [] [] {| item := 0; settlement := Sample.succeeds "QUFB" 1001 |}
         {| GeneratedImage.id := "k3j5h7g9d2s4a";
            GeneratedImage.base64 := "data:image/png;base64,QUFB";
            GeneratedImage.prompt := "a cat";
            GeneratedImage.timestamp := 1001;
            GeneratedImage.selected := false;
            GeneratedImage.aspectRatio := "1:1" |}
         0 1%nat (new_Error "render failed") _ _ _ _)))).
    + split; [unfold MAX_ARRAY_LENGTH; lia | reflexivity].
    + reflexivity.
    + reflexivity.
    + reflexivity.
  - refine (proj2 (proj2 (proj2 (proj2
      (callback_throws_on_success Sample.throws_always "a cat" "" "1:1" tt 1
         [] [] {| item := 0; settlement := Sample.succeeds "QUFB" 1001 |}
         {| GeneratedImage.id := "k3j5h7g9d2s4a";
            GeneratedImage.base64 := "data:image/png;base64,QUFB";
            GeneratedImage.prompt := "a cat";
            GeneratedImage.timestamp := 1001;
            GeneratedImage.selected := false;
            GeneratedImage.aspectRatio := "1:1" |}
         0 tt (new_Error "render failed") _ _ _ _))))).
    + split; [unfold MAX_ARRAY_LENGTH; lia | reflexivity].
    + reflexivity.
    + reflexivity.
    + reflexivity.
Defined.

(** The scenario of three items of which the second fails, with a
    callback that returns normally: two images, both with the requested
    aspect ratio and in request order, and the callback invoked with 1,
    2 and 3. *)
Example mixed_batch :
  GeneratedImage.base64 <$>
    request_order "a cat" "" "1:1" 3 Sample.mixed
  = ["data:image/png;base64,QUFB"; "data:image/png;base64,Q0ND"] /\
  GeneratedImage.aspectRatio <$>
    request_order "a cat" "" "1:1" 3 Sample.mixed
  = ["1:1"; "1:1"] /\
  generateBatchImages Sample.quiet "a cat" "" "1:1" tt 3 Sample.mixed
  = Fulfilled (request_order "a cat" "" "1:1" 3 Sample.mixed) /\
  progress_calls Sample.quiet "a cat" "" "1:1" tt 3 Sample.mixed = [1; 2; 3].
Proof. repeat split. Qed.

(** * Further properties of [generateBatchImages] *)

Section BatchInvariants.
Context {CbState : Type}.
Variable onProgress : Z -> CbState -> CbState * option Thrown.
Variables prompt systemInstruction aspectRatio : string.
Variable cb0 : CbState.

Local Abbreviation step := (settle onProgress prompt systemInstruction aspectRatio).
Local Abbreviation next := (advance onProgress).
Local Abbreviation single ev :=
  (generateSingleImage prompt systemInstruction aspectRatio (settlement ev)).
Local Abbreviation batch count schedule :=
  (generateBatchImages onProgress prompt systemInstruction aspectRatio cb0 count schedule).
Local Abbreviation calls count schedule :=
  (progress_calls onProgress prompt systemInstruction aspectRatio cb0 count schedule).
Local Abbreviation state count schedule :=
  (run onProgress prompt systemInstruction aspectRatio cb0 count schedule).

(** ** The counter and the arguments of the callback *)

(** The callback has been invoked with 1, ..., [completed]. *)
Local Abbreviation counted sh :=
  (0 <= completed sh /\ invoked sh = seqZ 1 (completed sh)).

Lemma advance_counted (sh : Shared) : counted sh -> counted (next sh).
Proof.
  intros [Hpos Hinv]. unfold advance. simpl. split; [lia|].
  rewrite Hinv. rewrite (seqZ_app 1 (completed sh) 1) by lia.
  f_equal. rewrite (seqZ_cons _ 1) by lia. simpl. f_equal. lia.
Qed.

Lemma closure_counted (g : Completion GeneratedImage.t) (sh : Shared) :
  counted sh -> counted (closure onProgress g sh).1.
Proof.
  intros Hsh. destruct g as [img|e].
  - rewrite closure_Normal.
    destruct ((onProgress (completed sh + 1) (cb sh)).2); cbn [fst];
      auto using advance_counted.
  - rewrite closure_Throw. cbn [fst]. by apply advance_counted.
Qed.

(** A closure invokes the callback at most twice. *)
Lemma closure_invokes_twice (g : Completion GeneratedImage.t) (sh : Shared) :
  (length (invoked (closure onProgress g sh).1) <= length (invoked sh) + 2)%nat.
Proof.
  destruct g as [img|e].
  - rewrite closure_Normal.
    destruct ((onProgress (completed sh + 1) (cb sh)).2); simpl;
      rewrite ?length_app; simpl; lia.
  - rewrite closure_Throw. simpl. rewrite length_app. simpl. lia.
Qed.

Lemma settle_counted (b : Batch) (ev : Event) :
  counted (shared b) -> counted (shared (step b ev)).
Proof.
  intros Hb. unfold settle.
  destruct (promises b !! item ev) as [[| |]|]; try done.
  pose proof (closure_counted (single ev) (shared b) Hb) as Hc.
  by destruct (closure onProgress (single ev) (shared b)).
Qed.

Lemma settle_invokes_twice (b : Batch) (ev : Event) :
  (length (invoked (shared (step b ev))) <= length (invoked (shared b)) + 2)%nat.
Proof.
  unfold settle.
  destruct (promises b !! item ev) as [[| |]|]; try lia.
  pose proof (closure_invokes_twice (single ev) (shared b)) as Hc.
  by destruct (closure onProgress (single ev) (shared b)).
Qed.

Lemma foldl_settle_counted (schedule : list Event) (b : Batch) :
  counted (shared b) -> counted (shared (foldl step b schedule)).
Proof.
  revert b. induction schedule as [|ev rest IH]; intros b Hb; simpl; [done|].
  by apply IH, settle_counted.
Qed.

Lemma foldl_settle_invokes_twice (schedule : list Event) (b : Batch) :
  (length (invoked (shared (foldl step b schedule)))
   <= length (invoked (shared b)) + 2 * length schedule)%nat.
Proof.
  revert b. induction schedule as [|ev rest IH]; intros b; simpl; [lia|].
  specialize (IH (step b ev)). pose proof (settle_invokes_twice b ev). lia.
Qed.

(** Whatever the callback does and however the items settle, the
    arguments it is invoked with are 1, 2, 3, ... without a gap or a
    repetition, and the counter is the number of invocations. *)
Theorem progress_arguments_consecutive (count : Z) (schedule : list Event) :
  calls count schedule = seqZ 1 (Z.of_nat (length (calls count schedule))) /\
  completed (shared (state count schedule)) = Z.of_nat (length (calls count schedule)).
Proof.
  destruct (foldl_settle_counted schedule (launch cb0 count)) as [Hpos Hinv].
  { simpl. split; [lia|done]. }
  fold (state count schedule) in Hpos, Hinv.
  assert (Hlen : Z.of_nat (length (calls count schedule))
                 = completed (shared (state count schedule))).
  { unfold progress_calls. rewrite Hinv, length_seqZ. lia. }
  rewrite Hlen. split; [exact Hinv | done].
Qed.

(** Once every item has settled the callback has been invoked at least
    [count] and at most twice [count] times, whatever it does. *)
Theorem progress_count_bounds (count : Z) (schedule : list Event) :
  complete count schedule ->
  (Z.to_nat count <= length (calls count schedule) <= 2 * Z.to_nat count)%nat.
Proof.
  intros Hc. rewrite <- (complete_length count schedule Hc). split.
  - pose proof (foldl_settle_invoked onProgress prompt systemInstruction aspectRatio
                  schedule (launch cb0 count)) as Hlow.
    simpl in Hlow. apply Hlow.
    + by eapply complete_NoDup.
    + intros ev. by apply (complete_launched cb0 count schedule).
  - pose proof (foldl_settle_invokes_twice schedule (launch cb0 count)) as Hup.
    simpl in Hup. exact Hup.
Qed.

End BatchInvariants.

Section BatchProgress.
Context {CbState : Type}.
Variable onProgress : Z -> CbState -> CbState * option Thrown.
Variables prompt systemInstruction aspectRatio : string.
Variable cb0 : CbState.

Local Abbreviation step := (settle onProgress prompt systemInstruction aspectRatio).
Local Abbreviation single ev :=
  (generateSingleImage prompt systemInstruction aspectRatio (settlement ev)).
Local Abbreviation batch count schedule :=
  (generateBatchImages onProgress prompt systemInstruction aspectRatio cb0 count schedule).
Local Abbreviation calls count schedule :=
  (progress_calls onProgress prompt systemInstruction aspectRatio cb0 count schedule).
Local Abbreviation state count schedule :=
  (run onProgress prompt systemInstruction aspectRatio cb0 count schedule).

Lemma complete_well_formed (count : Z) (schedule : list Event) :
  complete count schedule -> well_formed count schedule.
Proof.
  intros Hc. split; [by eapply complete_NoDup|].
  intros ev Hin.
  assert (Hi : item ev ∈ seq 0 (Z.to_nat count)).
  { destruct Hc as [_ Hc]. rewrite <- Hc. by apply list_elem_of_fmap_2. }
  apply elem_of_seq in Hi. lia.
Qed.

Lemma well_formed_launched (count : Z) (schedule : list Event) (ev : Event) :
  count <= MAX_ARRAY_LENGTH ->
  well_formed count schedule -> ev ∈ schedule ->
  promises (launch cb0 count) !! item ev = Some Pending.
Proof.
  intros Hfits [_ Hr] Hin. rewrite (proj1 (launch_fits cb0 count Hfits)).
  apply lookup_replicate_2. by apply Hr.
Qed.

(** A batch that is not rejected in the end was not rejected at the
    start: its array could be built. *)
Lemma not_rejected_fits (count : Z) (schedule : list Event) :
  rejection (state count schedule) = None -> count <= MAX_ARRAY_LENGTH.
Proof.
  intros Hend.
  destruct (rejection (launch cb0 count)) as [e|] eqn:Hstart.
  - unfold run in Hend.
    by rewrite (foldl_settle_rejection onProgress prompt systemInstruction aspectRatio
                  schedule _ e Hstart) in Hend.
  - simpl in Hstart. by destruct (Z.leb_spec count MAX_ARRAY_LENGTH).
Qed.

Lemma well_formed_prefix (count : Z) (pre post : list Event) :
  well_formed count (pre ++ post) -> well_formed count pre.
Proof.
  intros [Hnd Hr]. split.
  - rewrite fmap_app in Hnd. by apply NoDup_app in Hnd as (? & _ & _).
  - intros ev Hin. apply Hr, elem_of_app. by left.
Qed.

(** Fewer settlements than items: some item has not settled. *)
Lemma well_formed_missing (count : Z) (schedule : list Event) :
  well_formed count schedule ->
  (length schedule < Z.to_nat count)%nat ->
  exists i, (i < Z.to_nat count)%nat /\ i ∉ item <$> schedule.
Proof.
  intros [Hnd _] Hlen.
  destruct (decide (Forall (fun i => i ∈ item <$> schedule) (seq 0 (Z.to_nat count))))
    as [Hall|Hex].
  - assert (Hsub : seq 0 (Z.to_nat count) ⊆+ item <$> schedule).
    { apply NoDup_submseteq; [apply NoDup_seq|]. by apply Forall_forall. }
    apply submseteq_length in Hsub. rewrite length_seq, length_fmap in Hsub. lia.
  - apply not_Forall_Exists in Hex; [|apply _].
    apply Exists_exists in Hex as (i & Hi & Hmiss).
    exists i. split; [|done]. apply elem_of_seq in Hi. lia.
Qed.

(** The promise of [generateBatchImages] is fulfilled only when every
    item has settled, whatever the callback does. *)
Theorem fulfilled_after_every_settlement (count : Z) (schedule : list Event)
    (l : list GeneratedImage.t) (i : nat) :
  batch count schedule = Fulfilled l ->
  (i < Z.to_nat count)%nat ->
  i ∈ item <$> schedule.
Proof.
  intros (settledResults & Hrej & Hall & _)%outcome_Fulfilled Hi.
  apply not_rejected_fits in Hrej.
  destruct (decide (i ∈ item <$> schedule)) as [|Hmiss]; [done|].
  assert (Hp : promises (state count schedule) !! i = Some Pending).
  { unfold run. rewrite foldl_settle_other by done.
    rewrite (proj1 (launch_fits cb0 count Hrej)). by apply lookup_replicate_2. }
  destruct (Forall2_lookup_l _ _ _ _ _ Hall Hp) as (v & _ & ?). done.
Qed.


Lemma quiet_pending (count : Z) (schedule : list Event) :
  count <= MAX_ARRAY_LENGTH ->
  returns_normally onProgress ->
  well_formed count schedule ->
  (length schedule < Z.to_nat count)%nat ->
  batch count schedule = Pending /\
  calls count schedule = seqZ 1 (Z.of_nat (length schedule)).
Proof.
  intros Hfits Hq Hwf Hlen.
  destruct (launch_fits cb0 count Hfits) as [Hprom0 Hrej0].
  destruct (foldl_settle_quiet onProgress prompt systemInstruction aspectRatio
              schedule (launch cb0 count) Hq)
    as (_ & Hinvoked & Hrej & Hprom).
  { apply Hwf. }
  { intros ev. by apply well_formed_launched. }
  split; [|exact Hinvoked].
  destruct (well_formed_missing count schedule Hwf Hlen) as (i & Hi & Hmiss).
  unfold generateBatchImages, outcome, run. rewrite Hrej, Hrej0.
  rewrite (mapM_None_2 fulfilled_value); [done|].
  apply Exists_exists. exists Pending. split; [|done].
  apply list_elem_of_lookup. exists i.
  rewrite Hprom, (event_of_None schedule i Hmiss), Hprom0.
  by apply lookup_replicate_2.
Qed.

(** While an item is outstanding, a batch of a size an array can have
    whose callback returns normally stays pending, and the callback has
    been invoked once per settlement so far. *)
Theorem pending_until_all_settled (count : Z) (schedule : list Event) :
  count <= MAX_ARRAY_LENGTH ->
  returns_normally onProgress ->
  well_formed count schedule ->
  (length schedule < Z.to_nat count)%nat ->
  batch count schedule = Pending /\
  calls count schedule = seqZ 1 (Z.of_nat (length schedule)).
Proof. apply quiet_pending. Qed.

(** With a callback that returns normally, once every item has settled
    the callback has been invoked exactly with 1, ..., [count] and the
    batch is fulfilled with the successful results in request order:
    the same images as in settlement order, as many as generations
    succeeded. *)
Theorem well_behaved_callback (count : Z) (schedule : list Event) :
  returns_normally onProgress ->
  complete count schedule ->
  calls count schedule = seqZ 1 count /\
  batch count schedule
  = Fulfilled (request_order prompt systemInstruction aspectRatio count schedule) /\
  request_order prompt systemInstruction aspectRatio count schedule
  ≡ₚ settlement_order prompt systemInstruction aspectRatio schedule.
Proof.
  intros Hq Hc.
  destruct (quiet_batch onProgress prompt systemInstruction aspectRatio cb0
              count schedule Hq Hc) as (Hcalls & _ & Hbatch).
  split; [done|]. split; [done|].
  by apply request_order_Permutation.
Qed.

(** Whatever the callback does, every image of the returned list is the
    result of a successful generation settled during the batch: a failed
    item contributes nothing. *)
Theorem returned_images_were_generated (count : Z) (schedule : list Event)
    (l : list GeneratedImage.t) (img : GeneratedImage.t) :
  batch count schedule = Fulfilled l ->
  img ∈ l ->
  exists ev, ev ∈ schedule /\ single ev = Normal img.
Proof. apply batch_elements. Qed.

(** A batch of more items than an array can have launches nothing: it is
    rejected at once with the [RangeError] of [Array.from], and the
    callback is never invoked, whatever settles afterwards. *)
Theorem oversized_batch (count : Z) (schedule : list Event) :
  MAX_ARRAY_LENGTH < count ->
  batch count schedule = Rejected (new_Error "Invalid array length") /\
  calls count schedule = [].
Proof.
  intros Hover.
  assert (Hbig : (count <=? MAX_ARRAY_LENGTH) = false) by (apply Z.leb_gt; lia).
  assert (Hrun : state count schedule = launch cb0 count).
  { unfold run.
    assert (Hnone : promises (launch cb0 count) = []) by (simpl; by rewrite Hbig).
    revert Hnone. generalize (launch cb0 count). intros b Hb.
    induction schedule as [|ev rest IH]; [done|]. simpl.
    assert (Hstep : step b ev = b); [|by rewrite Hstep].
    unfold settle. by rewrite Hb. }
  unfold generateBatchImages, progress_calls. rewrite Hrun.
  unfold outcome. simpl. by rewrite Hbig.
Qed.

(** A batch of no items never invokes the callback and is fulfilled with
    the empty list. *)
Theorem empty_batch (count : Z) (schedule : list Event) :
  count <= 0 ->
  calls count schedule = [] /\ batch count schedule = Fulfilled [].
Proof. apply no_items. Qed.

End BatchProgress.

(** * Further properties of [generateSingleImage] *)

Lemma length_append (s t : string) :
  String.length (s +:+ t) = (String.length s + String.length t)%nat.
Proof. induction s as [|c s IH]; simpl; [done | by rewrite IH]. Qed.

Lemma append_inj_r (t s1 s2 : string) : s1 +:+ t = s2 +:+ t -> s1 = s2.
Proof.
  revert s2. induction s1 as [|c s1 IH]; intros [|c' s2] Heq; simpl in Heq.
  - done.
  - apply (f_equal String.length) in Heq.
    rewrite ?length_append in Heq. simpl in Heq. rewrite ?length_append in Heq. lia.
  - apply (f_equal String.length) in Heq.
    rewrite ?length_append in Heq. simpl in Heq. rewrite ?length_append in Heq. lia.
  - injection Heq as -> Heq. f_equal. by apply IH.
Qed.

Lemma length_substring (n m : nat) (s : string) :
  String.length (String.substring n m s) = Nat.min m (String.length s - n).
Proof.
  revert n m. induction s as [|c s IH]; intros [|n] [|m]; simpl;
    rewrite ?IH; try lia.
  destruct (String.length s - n)%nat; simpl; lia.
Qed.

Lemma substring_split (n m : nat) (s : string) :
  exists before after,
    s = before +:+ String.substring n m s +:+ after /\
    String.length before = Nat.min n (String.length s).
Proof.
  revert n m. induction s as [|c s IH]; intros n m.
  - exists "", "". by destruct n, m.
  - destruct n as [|n].
    + destruct m as [|m].
      * by exists "", (String c s).
      * destruct (IH 0%nat m) as (before & after & Hs & Hlen).
        destruct before; [|done].
        exists "", after. split; [|done].
        change (String c s = String c ("" +:+ String.substring 0 m s +:+ after)).
        f_equal. exact Hs.
    + destruct (IH n m) as (before & after & Hs & Hlen).
      exists (String c before), after. split.
      * change (String c s = String c (before +:+ String.substring n m s +:+ after)).
        f_equal. exact Hs.
      * simpl. by rewrite Hlen.
Qed.

(** The identifier is the random text from its third character on, cut
    at thirteen characters: the text is two characters (or all it has),
    then the identifier, then what was cut off. *)
Theorem generateId_drops_two (s : Settlement) :
  exists before after,
    random36 s = before +:+ generateId s +:+ after /\
    String.length before = Nat.min 2 (String.length (random36 s)) /\
    String.length (generateId s) = Nat.min 13 (String.length (random36 s) - 2).
Proof.
  unfold generateId.
  destruct (substring_split 2 13 (random36 s)) as (before & after & Hs & Hlen).
  exists before, after. split; [done|]. split; [done|]. apply length_substring.
Qed.

Lemma or_else_truthy (a : option string) (b : string) :
  truthy b = true -> truthy (or_else a b) = true.
Proof.
  intros Hb. unfold or_else. destruct a as [s|]; [|done].
  by destruct (truthy s) eqn:Hs.
Qed.

(** When the provider call throws, [generateSingleImage] fails with an
    [Error] whose message is not empty: the message of the value thrown
    when it has one that is not empty, "Failed to generate image" when
    it has none or an empty one, and the message of the [TypeError] of
    reading [message] when [null] or [undefined] was thrown. *)
Theorem provider_failure_message (prompt systemInstruction aspectRatio : string)
    (s : Settlement) (e0 : Thrown) :
  provider s (request prompt systemInstruction aspectRatio) = Throw e0 ->
  (exists m, m ≠ "" /\
     generateSingleImage prompt systemInstruction aspectRatio s = Throw (new_Error m)) /\
  (forall m0, e0 = ThrownValue (Some m0) -> m0 ≠ "" ->
     generateSingleImage prompt systemInstruction aspectRatio s = Throw (new_Error m0)) /\
  (e0 = ThrownValue None \/ e0 = ThrownValue (Some "") ->
     generateSingleImage prompt systemInstruction aspectRatio s
     = Throw (new_Error "Failed to generate image")) /\
  (e0 = ThrownUndefined ->
     generateSingleImage prompt systemInstruction aspectRatio s
     = Throw (TypeError_reading_of "undefined" "message")) /\
  (e0 = ThrownNull ->
     generateSingleImage prompt systemInstruction aspectRatio s
     = Throw (TypeError_reading_of "null" "message")).
Proof.
  intros Hprov. unfold generateSingleImage, try_block. rewrite Hprov.
  split; [|split; [|split; [|split]]].
  - destruct e0 as [| |m0]; simpl.
    + refine (ex_intro _ _ (conj _ eq_refl)). discriminate.
    + refine (ex_intro _ _ (conj _ eq_refl)). discriminate.
    + refine (ex_intro _ _ (conj _ eq_refl)).
      by apply truthy_nonempty, or_else_truthy.
  - intros m0 -> Hm0%truthy_nonempty. simpl. by rewrite Hm0.
  - by intros [-> | ->].
  - by intros ->.
  - by intros ->.
Qed.

Lemma provider_failure_message_witness :
  generateSingleImage "a cat" "" "1:1" (Sample.fails 7)
  = Throw (new_Error "quota exceeded").
Proof.
  refine (proj1 (proj2 (provider_failure_message "a cat" "" "1:1" (Sample.fails 7)
                          (ThrownValue (Some "quota exceeded")) _))
            "quota exceeded" _ _).
  - reflexivity.
  - reflexivity.
  - discriminate.
Defined.

(** Only the first candidate of the response is read: two responses
    that agree on it give the same result, whatever candidates follow. *)
Theorem later_candidates_ignored (prompt systemInstruction aspectRatio : string)
    (s s' : Settlement) (c : Candidate) (cs cs' : list Candidate) :
  provider s (request prompt systemInstruction aspectRatio)
  = Normal {| candidates := Some (c :: cs) |} ->
  provider s' (request prompt systemInstruction aspectRatio)
  = Normal {| candidates := Some (c :: cs') |} ->
  random36 s = random36 s' ->
  now s = now s' ->
  generateSingleImage prompt systemInstruction aspectRatio s
  = generateSingleImage prompt systemInstruction aspectRatio s'.
Proof.
  intros Hs Hs' Hrandom Hnow.
  unfold generateSingleImage, try_block, generateId.
  by rewrite Hs, Hs', Hrandom, Hnow.
Qed.

Lemma later_candidates_ignored_witness :
  generateSingleImage "a cat" "" "1:1" (Sample.succeeds "QUFB" 7)
  = generateSingleImage "a cat" "" "1:1"
      {| provider := fun _ =>
           Normal {| candidates :=
             Some [ {| content := Some {| parts := Some [Sample.commentary "here it is";
                                                         Sample.png "QUFB"] |} |};
                    {| content := Some {| parts := Some [Sample.png "Q0ND"] |} |} ] |};
         random36 := "0.k3j5h7g9d2s4a6q8w";
         now := 7 |}.
Proof.
  eapply later_candidates_ignored; reflexivity.
Defined.

(** * Properties of the gallery *)

Lemma flip_selected_involutive (img : GeneratedImage.t) :
  App.flip_selected (App.flip_selected img) = img.
Proof. destruct img. unfold App.flip_selected. simpl. by rewrite negb_involutive. Qed.

(** Toggling the selection of an identifier twice restores the gallery,
    also when several images share the identifier. *)
Theorem toggle_twice (id : string) (s : App.State) :
  App.toggleImageSelection id (App.toggleImageSelection id s) = s.
Proof.
  destruct s as [ready prompt config images status fullscreen].
  unfold App.toggleImageSelection, App.setImages. simpl. f_equal.
  rewrite <- list_fmap_compose.
  induction images as [|img rest IH]; [done|]. csimpl. rewrite IH. f_equal.
  destruct (String.eqb (GeneratedImage.id img) id) eqn:Hid; simpl.
  - by rewrite Hid, flip_selected_involutive.
  - by rewrite Hid.
Qed.

Lemma toggle_images_absent (id : string) (l : list GeneratedImage.t) :
  id ∉ GeneratedImage.id <$> l ->
  (fun img => if String.eqb (GeneratedImage.id img) id
              then App.flip_selected img else img) <$> l = l.
Proof.
  induction l as [|img rest IH]; [done|].
  rewrite fmap_cons, not_elem_of_cons. intros [Hne Hrest]. csimpl.
  rewrite IH by done. f_equal.
  destruct (String.eqb_spec (GeneratedImage.id img) id); [congruence | done].
Qed.

(** When identifiers are distinct, toggling flips the flag of the one
    image with that identifier and leaves every other image, and every
    other cell of the state, as it was; an identifier that is not in the
    gallery changes nothing. *)
Theorem toggle_one (id : string) (s : App.State) :
  (forall i img,
      NoDup (GeneratedImage.id <$> App.images s) ->
      App.images s !! i = Some img ->
      GeneratedImage.id img = id ->
      App.toggleImageSelection id s
      = App.setImages (fun prev => <[i := App.flip_selected img]> prev) s) /\
  (id ∉ GeneratedImage.id <$> App.images s -> App.toggleImageSelection id s = s).
Proof.
  destruct s as [ready prompt config images status fullscreen].
  unfold App.toggleImageSelection, App.setImages. simpl. split.
  - intros i img Hnd Hi Hid. f_equal.
    revert i Hi. induction images as [|img' rest IH]; intros i Hi; [done|].
    rewrite fmap_cons, NoDup_cons in Hnd. destruct Hnd as [Hfresh Hnd].
    destruct i as [|i]; simpl in Hi.
    + injection Hi as ->. csimpl. rewrite Hid, String.eqb_refl. f_equal.
      apply toggle_images_absent. by rewrite <- Hid.
    + csimpl. rewrite (IH Hnd i Hi). f_equal.
      destruct (String.eqb_spec (GeneratedImage.id img') id) as [Heq|]; [|done].
      destruct Hfresh. rewrite Heq, <- Hid.
      apply list_elem_of_fmap_2. by eapply list_elem_of_lookup_2.
  - intros Habsent. f_equal. by apply toggle_images_absent.
Qed.

Lemma toggle_one_witness :
  let img := {| GeneratedImage.id := "k3j5h7g9d2s4a";
                GeneratedImage.base64 := "data:image/png;base64,QUFB";
                GeneratedImage.prompt := "a cat";
                GeneratedImage.timestamp := 1001;
                GeneratedImage.selected := false;
                GeneratedImage.aspectRatio := "1:1" |} in
  let s := {| App.apiKeyReady := true; App.prompt := ""; 
              App.config := {| GenerationConfig.systemPrompt := "";
                               GenerationConfig.imageCount := 4;
                               GenerationConfig.aspectRatio := "1:1" |};
              App.images := [img]; App.status := App.idle;
              App.fullscreenImage := None |} in
  App.toggleImageSelection "k3j5h7g9d2s4a" s
  = App.setImages (fun prev => <[0%nat := App.flip_selected img]> prev) s /\
  App.toggleImageSelection "zzz" s = s.
Proof.
  intros img s. split.
  - apply (proj1 (toggle_one "k3j5h7g9d2s4a" s) 0%nat img).
    + simpl. apply NoDup_singleton.
    + reflexivity.
    + reflexivity.
  - apply (proj2 (toggle_one "zzz" s)). simpl.
    intros [Heq|Hin]%elem_of_cons; [discriminate Heq | by apply elem_of_nil in Hin].
Defined.

Lemma filter_selected_split (l : list GeneratedImage.t) :
  (length (List.filter (fun img => negb (GeneratedImage.selected img)) l)
   + length (List.filter GeneratedImage.selected l) = length l)%nat.
Proof.
  induction l as [|img rest IH]; [done|]. simpl.
  destruct (GeneratedImage.selected img); simpl; lia.
Qed.

Lemma filter_unselected_idem (l : list GeneratedImage.t) :
  List.filter (fun img => negb (GeneratedImage.selected img))
    (List.filter (fun img => negb (GeneratedImage.selected img)) l)
  = List.filter (fun img => negb (GeneratedImage.selected img)) l.
Proof.
  induction l as [|img rest IH]; [done|]. simpl.
  destruct (GeneratedImage.selected img) eqn:Hsel; simpl; [done|].
  by rewrite Hsel, IH.
Qed.

Lemma filter_selected_unselected (l : list GeneratedImage.t) :
  List.filter GeneratedImage.selected
    (List.filter (fun img => negb (GeneratedImage.selected img)) l) = [].
Proof.
  induction l as [|img rest IH]; [done|]. simpl.
  destruct (GeneratedImage.selected img) eqn:Hsel; simpl; [done|].
  by rewrite Hsel.
Qed.

(** Deleting the selection removes exactly as many images as were
    selected, leaves none selected, and is without effect when repeated. *)
Theorem deleteSelected_removes_selection (s : App.State) :
  (length (App.images (App.deleteSelected s)) + App.selectedCount s
   = length (App.images s))%nat /\
  App.selectedCount (App.deleteSelected s) = 0%nat /\
  App.deleteSelected (App.deleteSelected s) = App.deleteSelected s.
Proof.
  destruct s as [ready prompt config images status fullscreen].
  unfold App.deleteSelected, App.selectedCount, App.setImages. simpl.
  split; [apply filter_selected_split|]. split.
  - by rewrite filter_selected_unselected.
  - by rewrite filter_unselected_idem.
Qed.

(** [downloadSelected] sets one timer per selected image, in the order
    of the gallery; the k-th fires after 200 k milliseconds and saves
    the image's data under the name made of its timestamp. *)
Theorem downloadSelected_timers (s : App.State) :
  length (App.downloadSelected s) = App.selectedCount s /\
  forall k delay d,
    App.downloadSelected s !! k = Some (delay, d) ->
    delay = Z.of_nat k * 200 /\
    exists img,
      List.filter GeneratedImage.selected (App.images s) !! k = Some img /\
      GeneratedImage.selected img = true /\
      img ∈ App.images s /\
      d = {| App.href := GeneratedImage.base64 img;
             App.download := "neogen-" +:+ pretty (GeneratedImage.timestamp img) +:+ ".png" |}.
Proof.
  unfold App.downloadSelected, App.selectedCount. split; [apply length_imap|].
  intros k delay d Hk. rewrite list_lookup_imap in Hk.
  destruct (List.filter GeneratedImage.selected (App.images s) !! k) as [img|] eqn:Himg;
    [|done].
  simpl in Hk. injection Hk as <- <-. split; [done|].
  exists img. split; [done|].
  apply list_elem_of_lookup_2, list_elem_of_In, filter_In in Himg as [Hin Hsel].
  split; [done|]. split; [by apply list_elem_of_In | done].
Qed.

Lemma downloadSelected_timers_witness :
  let img := {| GeneratedImage.id := "k3j5h7g9d2s4a";
                GeneratedImage.base64 := "data:image/png;base64,QUFB";
                GeneratedImage.prompt := "a cat";
                GeneratedImage.timestamp := 1001;
                GeneratedImage.selected := true;
                GeneratedImage.aspectRatio := "1:1" |} in
  let s := {| App.apiKeyReady := true; App.prompt := ""; 
              App.config := {| GenerationConfig.systemPrompt := "";
                               GenerationConfig.imageCount := 4;
                               GenerationConfig.aspectRatio := "1:1" |};
              App.images := [img; img]; App.status := App.idle;
              App.fullscreenImage := None |} in
  200 = Z.of_nat 1 * 200.
Proof.
  intros img s.
  apply (proj2 (downloadSelected_timers s) 1%nat 200
           {| App.href := "data:image/png;base64,QUFB";
              App.download := "neogen-1001.png" |}).
  reflexivity.
Defined.

(** Two images are saved under the same file name exactly when they
    carry the same timestamp. *)
Theorem download_name_timestamp (a b : GeneratedImage.t) :
  App.download (App.downloadImage a) = App.download (App.downloadImage b)
  <-> GeneratedImage.timestamp a = GeneratedImage.timestamp b.
Proof.
  unfold App.downloadImage. simpl. split.
  - intros Heq. apply (inj (String.app "neogen-")) in Heq.
    apply append_inj_r in Heq. by apply (inj pretty) in Heq.
  - by intros ->.
Qed.

(** A ratio is shown square unless it is one of the five other tokens,
    each of which has a class of its own. *)
Theorem getAspectClass_square (ratio : string) :
  App.getAspectClass ratio = "aspect-square"
  <-> ratio ∉ ["16:9"; "9:16"; "3:4"; "4:3"; "4:5"].
Proof.
  unfold App.getAspectClass.
  destruct (String.eqb_spec ratio "16:9") as [->|?];
    [split; [discriminate | intros H; destruct H; set_solver]|].
  destruct (String.eqb_spec ratio "9:16") as [->|?];
    [split; [discriminate | intros H; destruct H; set_solver]|].
  destruct (String.eqb_spec ratio "3:4") as [->|?];
    [split; [discriminate | intros H; destruct H; set_solver]|].
  destruct (String.eqb_spec ratio "4:3") as [->|?];
    [split; [discriminate | intros H; destruct H; set_solver]|].
  destruct (String.eqb_spec ratio "4:5") as [->|?];
    [split; [discriminate | intros H; destruct H; set_solver]|].
  split; [|done]. intros _.
  repeat (apply not_elem_of_cons; split; [done|]). apply not_elem_of_nil.
Qed.

(** * Properties of the fullscreen viewer *)

Lemma findIndex_NoDup (l : list GeneratedImage.t) (i : nat) (img : GeneratedImage.t) :
  NoDup (GeneratedImage.id <$> l) ->
  l !! i = Some img ->
  App.findIndex (GeneratedImage.id img) l = Some i.
Proof.
  intros Hnd Hi. unfold App.findIndex.
  assert (Hfind : list_find (fun x => GeneratedImage.id x = GeneratedImage.id img) l
                  = Some (i, img)); [|by rewrite Hfind].
  apply list_find_Some. split; [done|]. split; [done|].
  intros j y Hj Hlt Hid.
  assert (j = i); [|lia].
  eapply (NoDup_lookup _ _ _ _ Hnd); rewrite list_lookup_fmap.
  - by rewrite Hj.
  - rewrite Hi. simpl. by rewrite Hid.
Qed.

Lemma findIndex_Some (l : list GeneratedImage.t) (id : string) (i : nat) :
  App.findIndex id l = Some i -> (i < length l)%nat.
Proof.
  unfold App.findIndex. destruct (list_find _ l) as [[j x]|] eqn:Hfind; [|done].
  intros [= <-]. apply list_find_Some in Hfind as (Hj & _). by eapply lookup_lt_Some.
Qed.

Lemma navigate_shows_image (direction : Z) (s : App.State)
    (current : GeneratedImage.t) :
  App.fullscreenImage s = Some current ->
  exists img,
    App.fullscreenImage (App.navigateFullscreen direction s) = Some img /\
    (img ∈ App.images s \/
     (img = current /\ GeneratedImage.id current ∉ GeneratedImage.id <$> App.images s)).
Proof.
  intros Hcur. unfold App.navigateFullscreen. rewrite Hcur.
  destruct (App.findIndex (GeneratedImage.id current) (App.images s)) as [i|] eqn:Hfind.
  - apply findIndex_Some in Hfind. cbv zeta.
    match goal with |- context [App.at_index _ ?t] => set (target := t) end.
    assert (Hwrap : exists j : nat,
               (j < length (App.images s))%nat /\ target = Z.of_nat j).
    { subst target.
      destruct (Z.ltb_spec (Z.of_nat i + direction) 0).
      - destruct (Z.geb_spec (Z.of_nat (length (App.images s)) - 1)
                             (Z.of_nat (length (App.images s)))); [lia|].
        exists (Z.to_nat (Z.of_nat (length (App.images s)) - 1)). split; lia.
      - destruct (Z.geb_spec (Z.of_nat i + direction)
                             (Z.of_nat (length (App.images s)))).
        + exists 0%nat. split; lia.
        + exists (Z.to_nat (Z.of_nat i + direction)). split; lia. }
    destruct Hwrap as (j & Hj & ->).
    destruct (lookup_lt_is_Some_2 (App.images s) j Hj) as [img Himg].
    exists img. simpl. unfold App.at_index.
    destruct (Z.ltb_spec (Z.of_nat j) 0); [lia|]. rewrite Nat2Z.id.
    split; [done|]. left. by eapply list_elem_of_lookup_2.
  - exists current. split; [done|]. right. split; [done|].
    intros (img & Hid & Hin)%list_elem_of_fmap.
    unfold App.findIndex in Hfind.
    destruct (list_find _ (App.images s)) eqn:Hnone; [done|].
    apply list_find_None in Hnone. rewrite Forall_forall in Hnone.
    by apply (Hnone img Hin).
Qed.

(** Navigation never closes the viewer and never shows a missing image:
    for every step, also one larger than the gallery, the viewer shows
    an image of the gallery afterwards, or the image it showed when that
    image is no longer in the gallery. *)
Theorem navigateFullscreen_stays_open (direction : Z) (s : App.State)
    (current : GeneratedImage.t) :
  App.fullscreenImage s = Some current ->
  exists img,
    App.fullscreenImage (App.navigateFullscreen direction s) = Some img /\
    (img ∈ App.images s \/
     (img = current /\ GeneratedImage.id current ∉ GeneratedImage.id <$> App.images s)).
Proof. apply navigate_shows_image. Qed.

(** Of all keys only Escape closes the viewer, and no key opens it. *)
Theorem handleKeyDown_closes_on_escape (key : string) (s : App.State) :
  App.fullscreenImage (App.handleKeyDown key s) = None
  <-> App.fullscreenImage s = None \/ key = "Escape".
Proof.
  unfold App.handleKeyDown.
  destruct (App.fullscreenImage s) as [current|] eqn:Hcur.
  - destruct (String.eqb_spec key "Escape") as [->|Hesc]; [simpl; split; by auto|].
    assert (Hopen : forall s', App.fullscreenImage s' ≠ None ->
              App.fullscreenImage s' = None <-> Some current = None \/ key = "Escape").
    { intros s' Hs'. split; [done|]. by intros [?|?]. }
    destruct (String.eqb key "ArrowRight"); [|destruct (String.eqb key "ArrowLeft")];
      apply Hopen.
    + destruct (navigate_shows_image 1 s current Hcur) as (img & -> & _). done.
    + destruct (navigate_shows_image (-1) s current Hcur) as (img & -> & _). done.
    + by rewrite Hcur.
  - split; auto.
Qed.

Lemma navigateFullscreen_stays_open_witness :
  let img := {| GeneratedImage.id := "k3j5h7g9d2s4a";
                GeneratedImage.base64 := "data:image/png;base64,QUFB";
                GeneratedImage.prompt := "a cat";
                GeneratedImage.timestamp := 1001;
                GeneratedImage.selected := false;
                GeneratedImage.aspectRatio := "1:1" |} in
  let s := {| App.apiKeyReady := true; App.prompt := ""; 
              App.config := {| GenerationConfig.systemPrompt := "";
                               GenerationConfig.imageCount := 4;
                               GenerationConfig.aspectRatio := "1:1" |};
              App.images := [img]; App.status := App.idle;
              App.fullscreenImage := Some img |} in
  exists img',
    App.fullscreenImage (App.navigateFullscreen 5 s) = Some img' /\
    (img' ∈ App.images s \/
     (img' = img /\ GeneratedImage.id img ∉ GeneratedImage.id <$> App.images s)).
Proof.
  intros img s. apply (navigateFullscreen_stays_open 5 s img). reflexivity.
Defined.

Lemma navigateFullscreen_at (direction : Z) (s : App.State) (i : nat)
    (current : GeneratedImage.t) :
  NoDup (GeneratedImage.id <$> App.images s) ->
  App.images s !! i = Some current ->
  App.fullscreenImage s = Some current ->
  App.navigateFullscreen direction s
  = App.setFullscreenImage
      (App.at_index (App.images s)
         (let n := Z.of_nat (length (App.images s)) in
          let newIndex := Z.of_nat i + direction in
          let newIndex := if newIndex <? 0 then n - 1 else newIndex in
          if newIndex >=? n then 0 else newIndex))
      s.
Proof.
  intros Hnd Hi Hcur. unfold App.navigateFullscreen.
  by rewrite Hcur, (findIndex_NoDup _ i current Hnd Hi).
Qed.

(** With distinct identifiers, one step forward followed by one step
    back, or one back followed by one forward, returns to the image
    shown, also across the ends of the gallery. *)
Theorem navigateFullscreen_round_trip (s : App.State) (i : nat)
    (current : GeneratedImage.t) :
  NoDup (GeneratedImage.id <$> App.images s) ->
  App.images s !! i = Some current ->
  App.fullscreenImage s = Some current ->
  App.navigateFullscreen (-1) (App.navigateFullscreen 1 s) = s /\
  App.navigateFullscreen 1 (App.navigateFullscreen (-1) s) = s.
Proof.
  intros Hnd Hi Hcur.
  pose proof (lookup_lt_Some _ _ _ Hi) as Hlen.
  assert (Hback : forall (d : Z) (j : nat),
             (d = 1 \/ d = -1) ->
             (let n := Z.of_nat (length (App.images s)) in
              let newIndex := Z.of_nat i + d in
              let newIndex := if newIndex <? 0 then n - 1 else newIndex in
              if newIndex >=? n then 0 else newIndex) = Z.of_nat j ->
             (j < length (App.images s))%nat /\
             (let n := Z.of_nat (length (App.images s)) in
              let newIndex := Z.of_nat j + - d in
              let newIndex := if newIndex <? 0 then n - 1 else newIndex in
              if newIndex >=? n then 0 else newIndex) = Z.of_nat i).
  { intros d j Hd. simpl.
    destruct (Z.ltb_spec (Z.of_nat i + d) 0);
      [destruct (Z.geb_spec (Z.of_nat (length (App.images s)) - 1)
                            (Z.of_nat (length (App.images s))))
      |destruct (Z.geb_spec (Z.of_nat i + d) (Z.of_nat (length (App.images s))))];
      intros Hj; (split; [lia|]);
      (destruct (Z.ltb_spec (Z.of_nat j + - d) 0);
       [destruct (Z.geb_spec (Z.of_nat (length (App.images s)) - 1)
                             (Z.of_nat (length (App.images s))))
       |destruct (Z.geb_spec (Z.of_nat j + - d) (Z.of_nat (length (App.images s))))];
       lia). }
  assert (Hgo : forall d : Z, d = 1 \/ d = -1 ->
             App.navigateFullscreen (- d) (App.navigateFullscreen d s) = s).
  { intros d Hd.
    rewrite (navigateFullscreen_at d s i current Hnd Hi Hcur).
    set (target := (let n := Z.of_nat (length (App.images s)) in
                    let newIndex := Z.of_nat i + d in
                    let newIndex := if newIndex <? 0 then n - 1 else newIndex in
                    if newIndex >=? n then 0 else newIndex)).
    assert (exists j : nat, target = Z.of_nat j) as [j Hj].
    { exists (Z.to_nat target). subst target. simpl.
      destruct (Z.ltb_spec (Z.of_nat i + d) 0);
        [destruct (Z.geb_spec (Z.of_nat (length (App.images s)) - 1)
                              (Z.of_nat (length (App.images s))))
        |destruct (Z.geb_spec (Z.of_nat i + d) (Z.of_nat (length (App.images s))))];
        lia. }
    destruct (Hback d j Hd Hj) as [Hjlen Hreturn].
    rewrite Hj. unfold App.at_index at 1.
    destruct (Z.ltb_spec (Z.of_nat j) 0); [lia|]. rewrite Nat2Z.id.
    destruct (lookup_lt_is_Some_2 (App.images s) j Hjlen) as [img Himg].
    rewrite Himg.
    rewrite (navigateFullscreen_at (- d) _ j img); [|done|done|done].
    simpl App.images. rewrite Hreturn. unfold App.at_index.
    destruct (Z.ltb_spec (Z.of_nat i) 0); [lia|]. rewrite Nat2Z.id, Hi.
    destruct s. simpl in *. unfold App.setFullscreenImage. simpl. by rewrite Hcur. }
  split.
  - apply (Hgo 1). by left.
  - apply (Hgo (-1)). by right.
Qed.

Lemma navigateFullscreen_round_trip_witness :
  let a := {| GeneratedImage.id := "aaa";
              GeneratedImage.base64 := "data:image/png;base64,QUFB";
              GeneratedImage.prompt := "a cat";
              GeneratedImage.timestamp := 1001;
              GeneratedImage.selected := false;
              GeneratedImage.aspectRatio := "1:1" |} in
  let b := {| GeneratedImage.id := "bbb";
              GeneratedImage.base64 := "data:image/png;base64,QkJC";
              GeneratedImage.prompt := "a cat";
              GeneratedImage.timestamp := 1002;
              GeneratedImage.selected := false;
              GeneratedImage.aspectRatio := "1:1" |} in
  let s := {| App.apiKeyReady := true; App.prompt := ""; 
              App.config := {| GenerationConfig.systemPrompt := "";
                               GenerationConfig.imageCount := 4;
                               GenerationConfig.aspectRatio := "1:1" |};
              App.images := [a; b]; App.status := App.idle;
              App.fullscreenImage := Some b |} in
  App.navigateFullscreen (-1) (App.navigateFullscreen 1 s) = s.
Proof.
  intros a b s.
  refine (proj1 (navigateFullscreen_round_trip s 1%nat b _ eq_refl eq_refl)).
  simpl. apply NoDup_cons. split; [|apply NoDup_singleton].
  intros Hin%list_elem_of_singleton. discriminate Hin.
Defined.

(** * Properties of [handleGenerate] *)

Section HandleGenerate.
Variable trim : string -> string.
Variable percent : Z -> Z -> Z.

Local Abbreviation callback count := (App.onProgress percent count).

Lemma onProgress_returns_normally (count : Z) : returns_normally (callback count).
Proof. by intros c st. Qed.

(** When the promise of the batch is pending before every settlement of
    the schedule, the handler resumes after the last one. *)
Lemma await_batch_run (count : Z) (prompt systemInstruction aspectRatio : string)
    (schedule : list Event) (b : Batch) :
  (forall pre ev post, schedule = pre ++ ev :: post ->
     outcome (foldl (settle (callback count) prompt systemInstruction aspectRatio) b pre)
     = Pending) ->
  App.await_batch percent count prompt systemInstruction aspectRatio b schedule
  = (outcome (foldl (settle (callback count) prompt systemInstruction aspectRatio)
                    b schedule),
     foldl (settle (callback count) prompt systemInstruction aspectRatio) b schedule,
     []).
Proof.
  revert b. induction schedule as [|ev rest IH]; intros b Hpre; simpl.
  - by destruct (outcome b).
  - pose proof (Hpre [] ev rest eq_refl) as Hfirst. simpl in Hfirst.
    rewrite Hfirst. apply IH.
    intros pre ev' post ->. apply (Hpre (ev :: pre) ev' post eq_refl).
Qed.

Lemma await_batch_complete (count : Z) (prompt systemInstruction aspectRatio : string)
    (schedule : list Event) (st : GenerationState.t) :
  complete count schedule ->
  App.await_batch percent count prompt systemInstruction aspectRatio
    (launch st count) schedule
  = (Fulfilled (request_order prompt systemInstruction aspectRatio count schedule),
     run (callback count) prompt systemInstruction aspectRatio st count schedule,
     []).
Proof.
  intros Hc. rewrite await_batch_run.
  - destruct (quiet_batch (callback count) prompt systemInstruction aspectRatio st
                count schedule (onProgress_returns_normally count) Hc)
      as (_ & _ & Hbatch).
    unfold generateBatchImages, run in Hbatch. by rewrite Hbatch.
  - intros pre ev post ->.
    apply (quiet_pending (callback count) prompt systemInstruction aspectRatio st count pre).
    + apply Hc.
    + apply onProgress_returns_normally.
    + eapply well_formed_prefix. by apply complete_well_formed.
    + apply complete_length in Hc. rewrite length_app in Hc. simpl in Hc. lia.
Qed.


Lemma setStatus_same (s : App.State) : App.setStatus (fun st => st) s = s.
Proof. by destruct s. Qed.


(** A generation started with a prompt that is not blank, once every
    item has settled: whatever the provider answered and whether or not
    the key dialog succeeded, the handler returns with no error shown,
    the status idle, the prompt cleared, the key never marked as invalid,
    and the successful images put in front of the gallery in request
    order. *)
Theorem handleGenerate_completes (aistudio : option AiStudio) (schedule : list Event)
    (s : App.State) :
  truthy (trim (App.prompt s)) = true ->
  complete (GenerationConfig.imageCount (App.config s)) schedule ->
  App.handleGenerate trim percent aistudio schedule s
  = App.Returned
      {| App.apiKeyReady :=
           App.apiKeyReady s ||
           match promptApiKeySelection aistudio with
           | Normal _ => true
           | Throw _ => false
           end;
         App.prompt := "";
         App.config := App.config s;
         App.images :=
           request_order (App.prompt s)
             (GenerationConfig.systemPrompt (App.config s))
             (GenerationConfig.aspectRatio (App.config s))
             (GenerationConfig.imageCount (App.config s)) schedule
           ++ App.images s;
         App.status := App.idle;
         App.fullscreenImage := App.fullscreenImage s |}.
Proof.
  intros Hprompt Hc. unfold App.handleGenerate. rewrite Hprompt. simpl negb. cbv iota.
  rewrite await_batch_complete by done. cbv zeta. simpl foldl.
  unfold App.handleApiKeySelection.
  destruct s as [ready prompt config images status fullscreen]. simpl.
  destruct ready; simpl; [done|].
  by destruct (promptApiKeySelection aistudio).
Qed.


(** A finished generation does not change which images are selected:
    the images it adds arrive unselected, so the count of selected
    images is the same and deleting the selection keeps all of them. *)
Theorem handleGenerate_keeps_selection (aistudio : option AiStudio)
    (schedule : list Event) (s s' : App.State) :
  truthy (trim (App.prompt s)) = true ->
  complete (GenerationConfig.imageCount (App.config s)) schedule ->
  App.handleGenerate trim percent aistudio schedule s = App.Returned s' ->
  App.selectedCount s' = App.selectedCount s /\
  exists added,
    App.images s' = added ++ App.images s /\
    App.images (App.deleteSelected s') = added ++ App.images (App.deleteSelected s).
Proof.
  intros Hprompt Hc Hret.
  unfold App.handleGenerate in Hret. rewrite Hprompt in Hret.
  simpl negb in Hret. cbv iota in Hret.
  rewrite await_batch_complete in Hret by done. cbv zeta in Hret.
  simpl foldl in Hret. injection Hret as <-.
  set (added := request_order _ _ _ _ schedule).
  assert (Hadded : Forall (fun img => GeneratedImage.selected img = false) added).
  { apply Forall_forall. intros img (i & _ & Himg)%list_elem_of_omap.
    destruct (event_of schedule i) as [ev|]; [|done]. simpl in Himg.
    unfold generated in Himg.
    destruct (generateSingleImage _ _ _ (settlement ev)) as [img'|] eqn:Hgen; [|done].
    injection Himg as ->.
    by apply generateSingleImage_Normal in Hgen as (? & ? & _ & _ & _ & ->). }
  assert (Hsel : List.filter GeneratedImage.selected added = []).
  { clear -Hadded. induction Hadded as [|img rest Himg _ IH]; [done|].
    simpl. by rewrite Himg. }
  assert (Hkeep : List.filter (fun img => negb (GeneratedImage.selected img)) added
                  = added).
  { clear -Hadded. induction Hadded as [|img rest Himg _ IH]; [done|].
    simpl. by rewrite Himg, IH. }
  assert (Himages : forall s2,
             s2 = App.setStatus (fun _ => App.loading) s \/
             s2 = App.handleApiKeySelection aistudio
                    (App.setStatus (fun _ => App.loading) s) ->
             App.images s2 = App.images s).
  { intros s2 [-> | ->]; [done|]. unfold App.handleApiKeySelection.
    by destruct (promptApiKeySelection aistudio). }
  unfold App.selectedCount, App.deleteSelected. simpl.
  rewrite (Himages _) by (destruct (App.apiKeyReady s); auto).
  rewrite !List.filter_app, Hsel, Hkeep. split; [done|].
  by exists added.
Qed.



(** Once every promise of the array is fulfilled, a settlement changes
    nothing. *)
Lemma foldl_settle_fulfilled (count : Z) (prompt systemInstruction aspectRatio : string)
    (schedule : list Event) (b : Batch) (vs : list (option GeneratedImage.t)) :
  mapM fulfilled_value (promises b) = Some vs ->
  foldl (settle (callback count) prompt systemInstruction aspectRatio) b schedule = b.
Proof.
  intros Hall. induction schedule as [|ev more IH]; [done|]. simpl.
  assert (Hstep : settle (callback count) prompt systemInstruction aspectRatio b ev = b);
    [|by rewrite Hstep].
  unfold settle. destruct (promises b !! item ev) as [p|] eqn:Hp; [|done].
  apply mapM_Some in Hall.
  destruct (Forall2_lookup_l _ _ _ _ _ Hall Hp) as (v & _ & Hv).
  by destruct p.
Qed.


(** A batch size no array can have is the one case in which the error
    branch is taken: nothing is launched, and the handler returns with
    the message of the [RangeError] shown, the prompt kept and the
    gallery unchanged, whatever settles. *)
Theorem handleGenerate_oversized (aistudio : option AiStudio) (schedule : list Event)
    (s : App.State) :
  truthy (trim (App.prompt s)) = true ->
  MAX_ARRAY_LENGTH < GenerationConfig.imageCount (App.config s) ->
  App.handleGenerate trim percent aistudio schedule s
  = App.Returned
      {| App.apiKeyReady :=
           App.apiKeyReady s ||
           match promptApiKeySelection aistudio with
           | Normal _ => true
           | Throw _ => false
           end;
         App.prompt := App.prompt s;
         App.config := App.config s;
         App.images := App.images s;
         App.status := App.failed "Invalid array length";
         App.fullscreenImage := App.fullscreenImage s |}.
Proof.
  intros Hprompt Hover.
  assert (Hbig : (GenerationConfig.imageCount (App.config s) <=? MAX_ARRAY_LENGTH) = false)
    by (apply Z.leb_gt; lia).
  unfold App.handleGenerate. rewrite Hprompt. simpl negb. cbv iota zeta.
  assert (Hawait : forall st,
             App.await_batch percent (GenerationConfig.imageCount (App.config s))
               (App.prompt s) (GenerationConfig.systemPrompt (App.config s))
               (GenerationConfig.aspectRatio (App.config s))
               (launch st (GenerationConfig.imageCount (App.config s))) schedule
             = (Rejected RangeError_invalid_array_length,
                launch st (GenerationConfig.imageCount (App.config s)), schedule)).
  { intros st. destruct schedule; simpl; unfold outcome; simpl; by rewrite Hbig. }
  rewrite Hawait. simpl. rewrite Hbig. f_equal.
  unfold App.setStatus at 1. cbn [App.status].
  rewrite (foldl_settle_fulfilled _ _ _ _ schedule _ []) by done. simpl.
  unfold App.handleApiKeySelection.
  destruct s as [ready prompt config images status fullscreen]. simpl.
  destruct ready; simpl; [done|].
  by destruct (promptApiKeySelection aistudio).
Qed.

End HandleGenerate.

(** * The further properties at concrete inputs *)

Lemma second_first_complete : complete 2 Sample.second_first.
Proof. split; [unfold MAX_ARRAY_LENGTH; lia|]. simpl. apply perm_swap. Qed.

Lemma progress_count_bounds_witness :
  (Z.to_nat 2
   <= length (progress_calls Sample.throws_once "a cat" "" "1:1" 0%nat 2
                Sample.second_first)
   <= 2 * Z.to_nat 2)%nat.
Proof.
  apply (progress_count_bounds Sample.throws_once "a cat" "" "1:1" 0%nat 2
           Sample.second_first).
  split; [unfold MAX_ARRAY_LENGTH; lia|]. simpl. apply perm_swap.
Defined.

Lemma fulfilled_after_every_settlement_witness :
  1%nat ∈ item <$> Sample.second_first.
Proof.
  apply (fulfilled_after_every_settlement Sample.quiet "a cat" "" "1:1" tt 2
           Sample.second_first
           (request_order "a cat" "" "1:1" 2 Sample.second_first) 1%nat).
  - reflexivity.
  - simpl. lia.
Defined.

Lemma pending_until_all_settled_witness :
  generateBatchImages Sample.quiet "a cat" "" "1:1" tt 2
    [ {| item := 1; settlement := Sample.fails 1000 |} ] = Pending /\
  progress_calls Sample.quiet "a cat" "" "1:1" tt 2
    [ {| item := 1; settlement := Sample.fails 1000 |} ] = seqZ 1 (Z.of_nat 1).
Proof.
  apply (pending_until_all_settled Sample.quiet "a cat" "" "1:1" tt 2
           [ {| item := 1; settlement := Sample.fails 1000 |} ]).
  - unfold MAX_ARRAY_LENGTH. lia.
  - intros c s. reflexivity.
  - split.
    + simpl. apply NoDup_singleton.
    + intros ev Hin%list_elem_of_singleton. subst ev. simpl. lia.
  - simpl. lia.
Defined.

Lemma well_behaved_callback_witness :
  progress_calls Sample.quiet "a cat" "" "1:1" tt 2 Sample.second_first = seqZ 1 2 /\
  generateBatchImages Sample.quiet "a cat" "" "1:1" tt 2 Sample.second_first
  = Fulfilled (request_order "a cat" "" "1:1" 2 Sample.second_first) /\
  request_order "a cat" "" "1:1" 2 Sample.second_first
  ≡ₚ settlement_order "a cat" "" "1:1" Sample.second_first.
Proof.
  apply (well_behaved_callback Sample.quiet "a cat" "" "1:1" tt 2 Sample.second_first).
  - intros c s. reflexivity.
  - split; [unfold MAX_ARRAY_LENGTH; lia|]. simpl. apply perm_swap.
Defined.

Lemma returned_images_were_generated_witness :
  exists ev, ev ∈ Sample.one_success /\
    generateSingleImage "a cat" "" "1:1" (settlement ev)
    = Normal {| GeneratedImage.id := "k3j5h7g9d2s4a";
                GeneratedImage.base64 := "data:image/png;base64,QUFB";
                GeneratedImage.prompt := "a cat";
                GeneratedImage.timestamp := 1001;
                GeneratedImage.selected := false;
                GeneratedImage.aspectRatio := "1:1" |}.
Proof.
  apply (returned_images_were_generated Sample.quiet "a cat" "" "1:1" tt 1
           Sample.one_success
           (request_order "a cat" "" "1:1" 1 Sample.one_success)).
  - reflexivity.
  - simpl. left.
Defined.

Lemma empty_batch_witness :
  progress_calls Sample.throws_always "a cat" "" "1:1" tt 0 [] = [] /\
  generateBatchImages Sample.throws_always "a cat" "" "1:1" tt 0 [] = Fulfilled [].
Proof.
  apply (empty_batch Sample.throws_always "a cat" "" "1:1" tt 0 []). lia.
Defined.

Lemma handleGenerate_completes_witness :
  App.handleGenerate SampleApp.trim SampleApp.percent SampleApp.dialog_fails
    SampleApp.both_fail SampleApp.typed
  = App.Returned
      {| App.apiKeyReady := false;
         App.prompt := "";
         App.config := App.config SampleApp.typed;
         App.images := [SampleApp.old_image];
         App.status := App.idle;
         App.fullscreenImage := None |}.
Proof.
  apply (handleGenerate_completes SampleApp.trim SampleApp.percent
           SampleApp.dialog_fails SampleApp.both_fail SampleApp.typed).
  - reflexivity.
  - split; [simpl; unfold MAX_ARRAY_LENGTH; lia|]. simpl. apply perm_swap.
Defined.


Lemma handleGenerate_keeps_selection_witness :
  App.selectedCount
    {| App.apiKeyReady := false;
       App.prompt := "";
       App.config := App.config SampleApp.typed;
       App.images := request_order "a cat" "" "1:1" 2 Sample.second_first
                     ++ [SampleApp.old_image];
       App.status := App.idle;
       App.fullscreenImage := None |}
  = App.selectedCount SampleApp.typed.
Proof.
  apply (proj1 (handleGenerate_keeps_selection SampleApp.trim SampleApp.percent
                  SampleApp.dialog_fails Sample.second_first SampleApp.typed _
                  eq_refl second_first_complete eq_refl)).
Defined.


Lemma oversized_batch_witness :
  generateBatchImages Sample.quiet "a cat" "" "1:1" tt 4294967296 Sample.second_first
  = Rejected (new_Error "Invalid array length") /\
  progress_calls Sample.quiet "a cat" "" "1:1" tt 4294967296 Sample.second_first = [].
Proof.
  apply (oversized_batch Sample.quiet "a cat" "" "1:1" tt 4294967296 Sample.second_first).
  unfold MAX_ARRAY_LENGTH. lia.
Defined.

Lemma handleGenerate_oversized_witness :
  App.handleGenerate SampleApp.trim SampleApp.percent SampleApp.dialog_fails []
    SampleApp.oversized
  = App.Returned
      {| App.apiKeyReady := false;
         App.prompt := "a cat";
         App.config := App.config SampleApp.oversized;
         App.images := [SampleApp.old_image];
         App.status := App.failed "Invalid array length";
         App.fullscreenImage := None |}.
Proof.
  apply (handleGenerate_oversized SampleApp.trim SampleApp.percent
           SampleApp.dialog_fails [] SampleApp.oversized).
  - reflexivity.
  - simpl. unfold MAX_ARRAY_LENGTH. lia.
Defined.
